(** * Resolution refutation: the first-order engine (fol.py) and the
      propositional engine (wumpus_world.py)

    Python strings are modelled as [string]: one [ascii] per code point, so
    the model covers the code points below 256 (Latin-1).  The negation
    marker of fol.py is the single code point U+00AC, the one of
    wumpus_world.py is the tilde.  Python sets and frozensets are [gset]s,
    dictionaries are [gmap]s. *)

From stdpp Require Import gmap strings list.
From Stdlib Require Import Ascii String NArith Lia.

Open Scope string_scope.
Open Scope list_scope.

(** ** Outcomes of a Python call *)

Inductive exn := TypeError | IndexError | ValueError.

(** [Ret v]: the call returns [v]; [Raise e]: it raises [e]; [OutOfFuel]:
    it has not returned within the recursion depth (or the number of loop
    rounds) the model was given. *)
Inductive result (A : Type) :=
  | Ret (a : A)
  | Raise (e : exn)
  | OutOfFuel.
Arguments Ret {A} a.
Arguments Raise {A} e.
Arguments OutOfFuel {A}.

#[global] Instance result_ret : MRet result := @Ret.
#[global] Instance result_bind : MBind result := λ A B k r,
  match r with
  | Ret a => k a
  | Raise e => Raise e
  | OutOfFuel => OutOfFuel
  end.

Definition is_ret {A} (r : result A) : bool :=
  match r with
  | Ret _ => true
  | _ => false
  end.

Fixpoint mapM {A B} (f : A → result B) (l : list A) : result (list B) :=
  match l with
  | [] => Ret []
  | x :: r => y ← f x; ys ← mapM f r; Ret (y :: ys)
  end.

(** [for x in l: s = f(x, s)], stopping at the first call that does not
    return. *)
Fixpoint foldM {A S} (f : A → S → result S) (l : list A) (s : S) : result S :=
  match l with
  | [] => Ret s
  | x :: r => s' ← f x s; foldM f r s'
  end.

(** The same loop with an early [return]: a step that yields [None] leaves
    the loop (and the function) at once. *)
Fixpoint foldM_exit {A S} (f : A → S → result (option S)) (l : list A) (s : S)
    : result (option S) :=
  match l with
  | [] => Ret (Some s)
  | x :: r =>
      o ← f x s;
      match o with
      | None => Ret None
      | Some s' => foldM_exit f r s'
      end
  end.

(** ** Iteration over sets

    Python fixes no order for the iteration over a set.  A [set_order] chooses,
    for every set, the sequence in which a [for] loop visits its elements;
    the theorems below hold for every such choice. *)
Record set_order := SetOrder {
  iter : ∀ (A : Type) `{Countable A}, gset A → list A;
  iter_perm : ∀ (A : Type) `{Countable A} (X : gset A), iter A X ≡ₚ elements X
}.
Arguments iter _ {A _ _} X.

Definition sorted : set_order :=
  {| iter := λ A _ _ X, elements X;
     iter_perm := λ A _ _ X, reflexivity (elements X) |}.

(** ** Characters and strings as Python sees them *)

Module Py.

Definition code (c : ascii) : N := N_of_ascii c.

Definition between (lo hi : N) (c : ascii) : bool :=
  (lo <=? code c)%N && (code c <=? hi)%N.

(** [str.isalpha] on one code point: general category L*. *)
Definition isalpha_char (c : ascii) : bool :=
  between 65 90 c || between 97 122 c
  || between 170 170 c || between 181 181 c || between 186 186 c
  || between 192 214 c || between 216 246 c || between 248 255 c.

(** [str.islower] on one code point: the Lowercase property. *)
Definition islower_char (c : ascii) : bool :=
  between 97 122 c
  || between 170 170 c || between 181 181 c || between 186 186 c
  || between 223 246 c || between 248 255 c.

Definition isdigit_ascii (c : ascii) : bool := between 48 57 c.

(** The class [\w] of [re] on str patterns: alphanumeric or underscore. *)
Definition isword_char (c : ascii) : bool :=
  isalpha_char c || isdigit_ascii c || between 95 95 c
  || between 178 179 c || between 185 185 c || between 188 190 c.

(** The class [\s] of [re] on str patterns. *)
Definition isspace_char (c : ascii) : bool :=
  between 9 13 c || between 28 32 c || between 133 133 c || between 160 160 c.

Definition newline : ascii := ascii_of_N 10.

(** The characters of a string, in order. *)
Definition chars (s : string) : list ascii := list_ascii_of_string s.

(** [s.isalpha()]: at least one character and all alphabetic. *)
Fixpoint all_alpha (s : string) : bool :=
  match s with
  | EmptyString => true
  | String c r => isalpha_char c && all_alpha r
  end.

Definition isalpha (s : string) : bool :=
  match s with
  | EmptyString => false
  | _ => all_alpha s
  end.

(** [s[1:]] *)
Definition tail (s : string) : string :=
  match s with
  | EmptyString => EmptyString
  | String _ r => r
  end.

(** [s.startswith(c)] for a one-character [c] *)
Definition startswith (c : ascii) (s : string) : bool :=
  match s with
  | EmptyString => false
  | String d _ => Ascii.eqb d c
  end.

(** [s.split(c)[0]]: the part of [s] before the first [c]. *)
Fixpoint before (c : ascii) (s : string) : string :=
  match s with
  | EmptyString => EmptyString
  | String d r => if Ascii.eqb d c then EmptyString else String d (before c r)
  end.

(** [sep.join(l)] *)
Fixpoint join (sep : string) (l : list string) : string :=
  match l with
  | [] => EmptyString
  | [x] => x
  | x :: r => x +:+ sep +:+ join sep r
  end.

(** The longest prefix of [s] whose characters satisfy [p], and the rest. *)
Fixpoint span (p : ascii → bool) (s : string) : string * string :=
  match s with
  | EmptyString => (EmptyString, EmptyString)
  | String c r =>
      if p c then let '(a, b) := span p r in (String c a, b)
      else (EmptyString, s)
  end.

(** The part of [s] before its last [c], when [c] occurs in [s]. *)
Fixpoint before_last (c : ascii) (s : string) : option string :=
  match s with
  | EmptyString => None
  | String d r =>
      match before_last c r with
      | Some t => Some (String d t)
      | None => if Ascii.eqb d c then Some EmptyString else None
      end
  end.

(** [re.split] on the pattern [,\s*]: every comma, with the white space after it, ends
    a piece.  [skip] is set while the white space after a comma is being
    consumed; [cur] is the piece read so far. *)
Fixpoint split_commas (skip : bool) (cur : string) (s : string) : list string :=
  match s with
  | EmptyString => [cur]
  | String c r =>
      if skip && isspace_char c then split_commas true cur r
      else if Ascii.eqb c "," then cur :: split_commas true EmptyString r
      else split_commas false (cur +:+ String c EmptyString) r
  end.

Definition re_split_commas (s : string) : list string :=
  split_commas false EmptyString s.

End Py.

(** ** fol.py *)

Module Fol.

(** The negation marker, U+00AC. *)
Definition neg : ascii := ascii_of_N 172.

(** A negative literal: the marker in front of the atom. *)
Definition Neg (atom : string) : string := String neg atom.

Abbreviation subst := (gmap string string).
Abbreviation clause := (gset string).

Definition negate_query (query : string) : string :=
  if Py.startswith neg query then Py.tail query else Neg query.

Definition prepare_kb_with_negated_query
    (kb : list (list string)) (query : string) : list (list string) :=
  kb ++ [[negate_query query]].

(** [re.match] of the pattern of the source: an optional marker, the
    longest run of word characters (at least one), an opening parenthesis,
    and then everything up to the last closing parenthesis before the first
    line break.  [(None, [])] when the pattern does not match. *)
Definition parse_sentence (sentence : string) : option string * list string :=
  let '(marker, body) :=
    if Py.startswith neg sentence
    then (String neg EmptyString, Py.tail sentence)
    else (EmptyString, sentence) in
  let '(name, rest) := Py.span Py.isword_char body in
  match name, rest with
  | String _ _, String "(" inner =>
      let '(line, _) := Py.span (fun c => negb (Ascii.eqb c Py.newline)) inner in
      match Py.before_last ")" line with
      | Some group2 => (Some (marker +:+ name), Py.re_split_commas group2)
      | None => (None, [])
      end
  | _, _ => (None, [])
  end.

Definition is_variable (term : string) : bool :=
  match term with
  | EmptyString => false
  | String c _ => Py.islower_char c && Py.isalpha term
  end.

Definition apply_substitution_to_term (term : string) (substitution : subst) : string :=
  if is_variable term then default term (substitution !! term) else term.

(** The loop [for a, b in zip(args1, args2): if not u(a, b, s): return False]
    followed by [return True]; the dictionary is shared, so the bindings made
    before a failure stay in it. *)
Fixpoint unify_each (u : string → string → subst → result (bool * subst))
    (pairs : list (string * string)) (substitutions : subst)
    : result (bool * subst) :=
  match pairs with
  | [] => Ret (true, substitutions)
  | (a, b) :: r =>
      '(ok, s) ← u a b substitutions;
      if ok : bool then unify_each u r s else Ret (false, s)
  end.

(** [fuel] bounds the recursion depth. *)
Fixpoint unify_terms (fuel : nat) (term1 term2 : string) (substitutions : subst)
    : result (bool * subst) :=
  match fuel with
  | O => OutOfFuel
  | S n =>
      let term1 := apply_substitution_to_term term1 substitutions in
      let term2 := apply_substitution_to_term term2 substitutions in
      if String.eqb term1 term2 then Ret (true, substitutions)
      else if is_variable term1 then Ret (true, <[term1 := term2]> substitutions)
      else if is_variable term2 then Ret (true, <[term2 := term1]> substitutions)
      else
        let '(predicate1, args1) := parse_sentence term1 in
        let '(predicate2, args2) := parse_sentence term2 in
        match predicate1, predicate2 with
        | Some p1, Some p2 =>
            if String.eqb p1 p2 && Nat.eqb (List.length args1) (List.length args2)
            then unify_each (unify_terms n) (zip args1 args2) substitutions
            else Ret (false, substitutions)
        | _, _ => Ret (false, substitutions)
        end
  end.

(** Which [return] of [unify] is reached: [None] for one of the three
    commented as a failed unification, [Some s] for the last one, commented
    as a successful one. *)
Definition unify_branch (fuel : nat) (sentence1 sentence2 : string)
    : result (option subst) :=
  let '(predicate1, args1) := parse_sentence sentence1 in
  let '(predicate2, args2) := parse_sentence sentence2 in
  if negb (bool_decide (predicate1 = predicate2)) then Ret None
  else if negb (Nat.eqb (List.length args1) (List.length args2)) then Ret None
  else
    '(ok, s) ← unify_each (unify_terms fuel) (zip args1 args2) ∅;
    if ok : bool then Ret (Some s) else Ret None.

(** The value [unify] returns: a failing branch returns the empty
    dictionary. *)
Definition unify (fuel : nat) (sentence1 sentence2 : string) : result subst :=
  o ← unify_branch fuel sentence1 sentence2;
  Ret (default ∅ o).

(** [predicate + '(' + ', '.join(new_args) + ')']; the sum raises a
    TypeError when the literal did not parse and [predicate] is None. *)
Definition apply_substitution_to_literal (literal : string) (substitution : subst)
    : result string :=
  let '(predicate, args) := parse_sentence literal in
  let new_args := (λ arg, apply_substitution_to_term arg substitution) <$> args in
  match predicate with
  | Some p => Ret (p +:+ "(" +:+ Py.join ", " new_args +:+ ")")
  | None => Raise TypeError
  end.

(** The two tests at the head of the loop body of [resolve]: the pair of
    sentences handed to [unify], or [None] when the body continues with
    the next pair. *)
Definition complementary (literal1 literal2 : string) : option (string * string) :=
  if Py.startswith neg literal1 && negb (Py.startswith neg literal2)
     && String.eqb (Py.before "(" (Py.tail literal1)) (Py.before "(" literal2)
  then Some (Py.tail literal1, literal2)
  else if negb (Py.startswith neg literal1) && Py.startswith neg literal2
     && String.eqb (Py.before "(" literal1) (Py.before "(" (Py.tail literal2))
  then Some (literal1, Py.tail literal2)
  else None.

(** The body of the inner loop of [resolve] for one pair of literals:
    [None] when it continues with the next pair, the clause it adds to the
    resolvents otherwise.  [unify] always returns a dictionary, so the value
    tested against None is always [Some]. *)
Definition resolvent (o : set_order) (fuel : nat) (clause1 clause2 : clause)
    (pair : string * string) : result (option clause) :=
  let '(literal1, literal2) := pair in
  match complementary literal1 literal2 with
  | None => Ret None
  | Some (s1, s2) =>
      d ← unify fuel s1 s2;
      let substitution : option subst := Some d in
      match substitution with
      | Some d =>
          let new_clause := (clause1 ∪ clause2) ∖ {[literal1; literal2]} in
          substituted_clause ←
            mapM (λ lit, apply_substitution_to_literal lit d) (iter o new_clause);
          Ret (Some (list_to_set substituted_clause))
      | None => Ret None
      end
  end.

Definition resolve_step (o : set_order) (fuel : nat) (clause1 clause2 : clause)
    (pair : string * string) (resolved_clauses : gset clause)
    : result (gset clause) :=
  r ← resolvent o fuel clause1 clause2 pair;
  match r with
  | Some c => Ret (resolved_clauses ∪ {[ c ]})
  | None => Ret resolved_clauses
  end.

Definition resolve (o : set_order) (fuel : nat) (clause1 clause2 : clause)
    : result (gset clause) :=
  foldM (resolve_step o fuel clause1 clause2)
    (literal1 ← iter o clause1; literal2 ← iter o clause2; [(literal1, literal2)])
    ∅.

(** The state of one round of the refutation loop: the pairs already
    processed and the clauses found so far. *)
Definition round_state : Type := gset (gset clause) * gset clause.

(** One turn of the inner loop of a round; [None] is [return True]. *)
Definition round_step (o : set_order) (fuel : nat) (clauses : gset clause)
    (p : clause * clause) (st : round_state) : result (option round_state) :=
  let '(ci, cj) := p in
  let '(processed_pairs, next_new_clauses) := st in
  if decide (ci = cj) then Ret (Some st)
  else
    let pair : gset clause := {[ci; cj]} in
    if decide (pair ∈ processed_pairs) then Ret (Some st)
    else
      resolvents ← resolve o fuel ci cj;
      if decide (∅ ∈ resolvents) then Ret None
      else Ret (Some (processed_pairs ∪ {[pair]},
                      next_new_clauses ∪ (resolvents ∖ clauses))).

(** The two nested [for] loops of one round. *)
Definition round (o : set_order) (fuel : nat) (clauses new_clauses : gset clause)
    : result (option round_state) :=
  foldM_exit (round_step o fuel clauses)
    (ci ← iter o new_clauses; cj ← iter o clauses; [(ci, cj)])
    (∅, ∅).

(** The [while True] loop; [rounds] bounds the number of rounds the model
    follows. *)
Fixpoint saturate (o : set_order) (rounds fuel : nat) (clauses new_clauses : gset clause)
    : result bool :=
  match rounds with
  | O => OutOfFuel
  | S n =>
      r ← round o fuel clauses new_clauses;
      match r with
      | None => Ret true
      | Some (_, next_new_clauses) =>
          if decide (next_new_clauses = ∅) then Ret false
          else saturate o n fuel (clauses ∪ next_new_clauses) next_new_clauses
      end
  end.

Definition inference_by_resolution (o : set_order) (rounds fuel : nat)
    (kb : list (list string)) (query : string) : result bool :=
  let kb := prepare_kb_with_negated_query kb query in
  let clauses : gset clause := list_to_set (list_to_set <$> kb) in
  let new_clauses : gset clause := {[ list_to_set (List.last kb []) ]} in
  saturate o rounds fuel clauses new_clauses.

(** Checks computed in the order of [sorted]: [resolve] returns the set
    [r]; every call of [resolve] a round can make returns; a round ends
    without the empty clause and with the new clauses [next]; a given pair
    of clauses resolves to the empty clause. *)
Definition resolve_yields (fuel : nat) (clause1 clause2 : clause) (r : gset clause)
    : bool :=
  match resolve sorted fuel clause1 clause2 with
  | Ret r' => bool_decide (r' = r)
  | _ => false
  end.

Definition all_resolve (fuel : nat) (new_clauses clauses : gset clause) : bool :=
  forallb (λ ci, forallb (λ cj, bool_decide (ci = cj)
                                || is_ret (resolve sorted fuel ci cj))
                   (elements clauses))
          (elements new_clauses).

Definition round_yields (fuel : nat) (clauses new_clauses next : gset clause) : bool :=
  match round sorted fuel clauses new_clauses with
  | Ret (Some (_, n)) => bool_decide (n = next)
  | _ => false
  end.

Definition derives_empty (fuel : nat) (ci cj : clause) : bool :=
  match resolve sorted fuel ci cj with
  | Ret r => bool_decide (∅ ∈ r)
  | _ => false
  end.




(** A dictionary [s'] binds, beyond the keys of [s], variables only. *)
Definition binds_variables (s s' : subst) : Prop :=
  ∀ k, is_Some (s' !! k) → is_Some (s !! k) ∨ is_variable k = true.

(** The knowledge base and the query of the demonstration in [main]. *)
Definition kb_king : list (list string) :=
  [ [Neg "King(x)"; Neg "Greedy(x)"; "Evil(x)"];
    ["King(John)"];
    ["Greedy(John)"] ].

Definition query_evil : string := "Evil(John)".

End Fol.

(** ** wumpus_world.py *)

Module Wumpus.

(** A sentence is a string (an atom) or a tuple whose first component is
    the operator and whose other components are the operands. *)
#[local] Unset Elimination Schemes.
Inductive formula :=
  | Atom (s : string)
  | Node (operator : string) (operands : list formula).

#[local] Set Elimination Schemes.

Definition Not (a : formula) : formula := Node "NOT" [a].
Definition And (a b : formula) : formula := Node "AND" [a; b].
Definition Or (a b : formula) : formula := Node "OR" [a; b].
Definition Implies (a b : formula) : formula := Node "IMPLIES" [a; b].
Definition Iff (a b : formula) : formula := Node "IFF" [a; b].

(** The test [isinstance(x, tuple) and x[0] == op]: the operands [x[1:]]
    when it holds. *)
Definition operands_of (op : string) (x : formula) : option (list formula) :=
  match x with
  | Atom _ => None
  | Node operator operands => if String.eqb operator op then Some operands else None
  end.

(** [operands[i]] *)
Definition index {A} (l : list A) (i : nat) : result A :=
  match l !! i with
  | Some x => Ret x
  | None => Raise IndexError
  end.

(** What [World.ask] returns: a Boolean, or None when no branch applies. *)
Inductive pyval := PyNone | PyBool (b : bool).

(** Python's truth value of such a value. *)
Definition truth (v : pyval) : bool :=
  match v with
  | PyBool b => b
  | PyNone => false
  end.

Definition pyval_eqb (v w : pyval) : bool :=
  match v, w with
  | PyNone, PyNone => true
  | PyBool a, PyBool b => Bool.eqb a b
  | _, _ => false
  end.

(** [World.ask]: [facts] is the set of known facts of the world.  [all],
    [any] and [or] stop at the first operand that decides the result. *)
Fixpoint ask (facts : gset string) (sentence : formula) : result pyval :=
  match sentence with
  | Atom s => Ret (PyBool (bool_decide (s ∈ facts)))
  | Node operator operands =>
      if String.eqb operator "NOT" then
        match operands with
        | [] => Raise IndexError
        | x :: _ => v ← ask facts x; Ret (PyBool (negb (truth v)))
        end
      else if String.eqb operator "AND" then
        (fix all (l : list formula) : result pyval :=
           match l with
           | [] => Ret (PyBool true)
           | x :: r => v ← ask facts x; if truth v then all r else Ret (PyBool false)
           end) operands
      else if String.eqb operator "OR" then
        (fix any (l : list formula) : result pyval :=
           match l with
           | [] => Ret (PyBool false)
           | x :: r => v ← ask facts x; if truth v then Ret (PyBool true) else any r
           end) operands
      else if String.eqb operator "IMPLIES" then
        match operands with
        | [] => Raise IndexError
        | a :: rest =>
            v ← ask facts a;
            if negb (truth v) then Ret (PyBool true)
            else match rest with
                 | [] => Raise IndexError
                 | b :: _ => ask facts b
                 end
        end
      else if String.eqb operator "IFF" then
        match operands with
        | [] => Raise IndexError
        | a :: rest =>
            v ← ask facts a;
            match rest with
            | [] => Raise IndexError
            | b :: _ => w ← ask facts b; Ret (PyBool (pyval_eqb v w))
            end
        end
      else Ret PyNone
  end.

(** [Player.convert_to_cnf]; [fuel] bounds the recursion depth. *)
Fixpoint convert_to_cnf (fuel : nat) (statement : formula) : result formula :=
  match fuel with
  | O => OutOfFuel
  | S n =>
      match statement with
      | Atom _ => Ret statement
      | Node operator operands =>
          if String.eqb operator "IFF" then
            x ← index operands 0; a ← convert_to_cnf n x;
            y ← index operands 1; b ← convert_to_cnf n y;
            convert_to_cnf n (And (Implies a b) (Implies b a))
          else if String.eqb operator "IMPLIES" then
            x ← index operands 0; a ← convert_to_cnf n x;
            y ← index operands 1; b ← convert_to_cnf n y;
            convert_to_cnf n (Or (Not a) b)
          else if String.eqb operator "NOT" then
            operand ← index operands 0;
            match operand with
            | Atom _ => Ret (Not operand)
            | Node op xs =>
                if String.eqb op "NOT" then
                  x ← index xs 0; convert_to_cnf n x
                else if String.eqb op "AND" then
                  x ← index xs 0; y ← index xs 1;
                  convert_to_cnf n (Or (Not x) (Not y))
                else if String.eqb op "OR" then
                  x ← index xs 0; y ← index xs 1;
                  convert_to_cnf n (And (Not x) (Not y))
                else
                  c ← convert_to_cnf n operand; Ret (Not c)
            end
          else if String.eqb operator "OR" then
            x ← index operands 0; left ← convert_to_cnf n x;
            y ← index operands 1; right ← convert_to_cnf n y;
            match operands_of "AND" left, operands_of "AND" right with
            | Some ls, _ =>
                l1 ← index ls 0; l2 ← index ls 1;
                convert_to_cnf n (And (Or l1 right) (Or l2 right))
            | None, Some rs =>
                r1 ← index rs 0; r2 ← index rs 1;
                convert_to_cnf n (And (Or left r1) (Or left r2))
            | None, None => Ret (Or left right)
            end
          else if String.eqb operator "AND" then
            cs ← mapM (convert_to_cnf n) operands; Ret (Node "AND" cs)
          else Ret statement
      end
  end.

(** The [while operands] loop of [_extract_clauses]; [fuel] bounds its
    number of turns. *)
Fixpoint flatten_or (fuel : nat) (operands clause : list formula)
    : result (list formula) :=
  match fuel with
  | O => OutOfFuel
  | S n =>
      match operands with
      | [] => Ret clause
      | operand :: rest =>
          match operands_of "OR" operand with
          | Some xs => flatten_or n (rest ++ xs) clause
          | None => flatten_or n rest (clause ++ [operand])
          end
      end
  end.

Fixpoint extract_clauses (fuel : nat) (cnf : formula) : result (list (list formula)) :=
  match fuel with
  | O => OutOfFuel
  | S n =>
      match cnf with
      | Atom _ => Ret [[cnf]]
      | Node operator operands =>
          if String.eqb operator "NOT" then Ret [[cnf]]
          else if String.eqb operator "AND" then
            cs ← mapM (extract_clauses n) operands; Ret (List.concat cs)
          else if String.eqb operator "OR" then
            clause ← flatten_or n operands []; Ret [clause]
          else Ret [[cnf]]
      end
  end.

Fixpoint literal_to_string (literal : formula) : result string :=
  match literal with
  | Atom s => Ret s
  | Node operator operands =>
      if String.eqb operator "NOT" then
        match operands with
        | [] => Raise IndexError
        | x :: _ => s ← literal_to_string x; Ret ("~" +:+ s)
        end
      else Raise ValueError
  end.

Abbreviation clause := (gset string).

(** One turn of the inner loop of [resolve_clauses]. *)
Definition resolve_clauses_step (ci cj : clause) (resolvents : gset clause)
    (p : string * string) : gset clause :=
  let '(di, dj) := p in
  if String.eqb di ("~" +:+ dj) || String.eqb dj ("~" +:+ di)
  then resolvents ∪ {[ (ci ∖ {[di]}) ∪ (cj ∖ {[dj]}) ]}
  else resolvents.

Definition resolve_clauses (o : set_order) (ci cj : clause) : gset clause :=
  foldl (resolve_clauses_step ci cj) ∅ (di ← iter o ci; dj ← iter o cj; [(di, dj)]).

(** [(clauses[i], clauses[j])] for [i < j], in the order of the source. *)
Fixpoint pairs {A} (l : list A) : list (A * A) :=
  match l with
  | [] => []
  | x :: r => (pair x <$> r) ++ pairs r
  end.

(** [c] is the resolvent of [ci] and [cj] on the literals [di] and [dj]. *)
Definition resolvent_on (ci cj : clause) (di dj : string) (c : clause) : Prop :=
  (di = "~" +:+ dj ∨ dj = "~" +:+ di) ∧ c = (ci ∖ {[di]}) ∪ (cj ∖ {[dj]}).

(** The resolvents of all pairs of a list of pairs of clauses. *)
Definition resolvents_of (o : set_order) (ps : list (clause * clause)) : gset clause :=
  ⋃ ((λ p, resolve_clauses o p.1 p.2) <$> ps).

(** The [for (ci, cj) in pairs] loop; [None] is [return True]. *)
Fixpoint scan (o : set_order) (ps : list (clause * clause)) (new : gset clause)
    : option (gset clause) :=
  match ps with
  | [] => Some new
  | (ci, cj) :: r =>
      let resolvents := resolve_clauses o ci cj in
      if decide (∅ ∈ resolvents) then None
      else scan o r (new ∪ resolvents)
  end.

(** The [for clause in new] loop. *)
Definition append_new (clauses new : list clause) : list clause :=
  foldl (λ cs c, if decide (c ∈ cs) then cs else cs ++ [c]) clauses new.

(** The [while True] loop; [new] is empty at the head of every round. *)
Fixpoint saturate (o : set_order) (rounds : nat) (clauses : list clause) : result bool :=
  match rounds with
  | O => OutOfFuel
  | S n =>
      match scan o (pairs clauses) ∅ with
      | None => Ret true
      | Some new =>
          if decide (new ⊆ list_to_set clauses) then Ret false
          else saturate o n (append_new clauses (iter o new))
      end
  end.

(** [Player.inference_by_resolution] of a player whose knowledge base is
    [kb]. *)
Definition inference_by_resolution (o : set_order) (rounds fuel : nat)
    (kb : list formula) (query : formula) : result bool :=
  clauses ← foldM (λ sentence clauses,
                     cnf ← convert_to_cnf fuel sentence;
                     cs ← extract_clauses fuel cnf;
                     Ret (clauses ++ cs)) kb [];
  negated_query ← convert_to_cnf fuel (Not query);
  cs ← extract_clauses fuel negated_query;
  clauses ← mapM (λ lits, ls ← mapM literal_to_string lits;
                          Ret (list_to_set ls : clause)) (clauses ++ cs);
  saturate o rounds clauses.

(** The knowledge base of two sentences and the one of the demonstration
    at the end of the file. *)
Definition kb_ab : list formula := [Atom "A"; Implies (Atom "A") (Atom "B")].

Definition initial_kb : list formula :=
  [ Atom "A"; Implies (Atom "A") (Atom "B"); Not (Atom "P11"); Not (Atom "W11");
    Not (Atom "B11"); Not (Atom "S11"); Not (Atom "P11");
    Iff (Atom "B11") (Or (Atom "P12") (Atom "P21")) ].

(** The formulas of the binary grammar: NOT has one operand, the other
    connectives have two. *)
Inductive binary_formula :=
  | BAtom (s : string)
  | BNot (a : binary_formula)
  | BAnd (a b : binary_formula)
  | BOr (a b : binary_formula)
  | BImplies (a b : binary_formula)
  | BIff (a b : binary_formula).

(** The tuple that represents a formula of the binary grammar. *)
Fixpoint tuple_of (f : binary_formula) : formula :=
  match f with
  | BAtom s => Atom s
  | BNot a => Not (tuple_of a)
  | BAnd a b => And (tuple_of a) (tuple_of b)
  | BOr a b => Or (tuple_of a) (tuple_of b)
  | BImplies a b => Implies (tuple_of a) (tuple_of b)
  | BIff a b => Iff (tuple_of a) (tuple_of b)
  end.

(** The truth value of a formula of the binary grammar when the atoms in
    [facts] are true and all others false. *)
Fixpoint holds (facts : gset string) (f : binary_formula) : bool :=
  match f with
  | BAtom s => bool_decide (s ∈ facts)
  | BNot a => negb (holds facts a)
  | BAnd a b => holds facts a && holds facts b
  | BOr a b => holds facts a || holds facts b
  | BImplies a b => negb (holds facts a) || holds facts b
  | BIff a b => Bool.eqb (holds facts a) (holds facts b)
  end.

(** [f] is a conjunction. *)
Definition is_and (f : binary_formula) : bool :=
  match f with
  | BAnd _ _ => true
  | _ => false
  end.

(** A measure that every recursive call of [convert_to_cnf] decreases and
    that its result never exceeds. *)
Fixpoint weight (f : binary_formula) : nat :=
  match f with
  | BAtom _ => 2
  | BNot a => 2 ^ weight a
  | BAnd a b => weight a + weight b + 1
  | BOr a b => weight a * weight b
  | BImplies a b => 2 ^ weight a * weight b + 1
  | BIff a b => 2 ^ weight a * weight b + 2 ^ weight b * weight a + 4
  end.

(** [convert_to_cnf] returns [g] on [f] at every large enough depth. *)
Definition converts (f g : formula) : Prop :=
  ∃ n : nat, ∀ m : nat, (n ≤ m)%nat → convert_to_cnf m f = Ret g.

End Wumpus.

(** The order opposite to [sorted]. *)
Definition reversed : set_order :=
  {| iter := λ A _ _ X, reverse (elements X);
     iter_perm := λ A _ _ X, reverse_Permutation (elements X) |}.

(** ** Printed literals *)

Module Printed.
Import Fol.

(** Every character of [s] satisfies [p]. *)
Fixpoint all_chars (p : ascii → bool) (s : string) : bool :=
  match s with
  | EmptyString => true
  | String c r => p c && all_chars p r
  end.

(** A predicate symbol as [parse_sentence] reads it: word characters, at
    least one. *)
Definition symbol (name : string) : bool :=
  match name with
  | EmptyString => false
  | _ => all_chars Py.isword_char name
  end.

(** An argument that holds neither a comma nor a line break. *)
Definition argument (a : string) : bool :=
  all_chars (λ c, negb (Ascii.eqb c ",") && negb (Ascii.eqb c Py.newline)) a.

(** An argument that does not start with white space. *)
Definition no_leading_space (a : string) : bool :=
  match a with
  | EmptyString => true
  | String c _ => negb (Py.isspace_char c)
  end.

(** While [split_commas] reads a piece that comes after a comma, the piece
    starts without white space: it is still empty and white space is being
    skipped, or its first character is none. *)
Definition started (skip : bool) (cur : string) : Prop :=
  match cur with
  | EmptyString => skip = true
  | String c _ => Py.isspace_char c = false
  end.

(** The values of a dictionary are arguments without leading white
    space. *)
Definition binds_arguments (s : subst) : Prop :=
  ∀ k v, s !! k = Some v → argument v = true ∧ no_leading_space v = true.

(** The text [apply_substitution_to_literal] builds from a predicate and its
    arguments. *)
Definition print (predicate : string) (args : list string) : string :=
  predicate +:+ "(" +:+ Py.join ", " args +:+ ")".

End Printed.

(** ** A family of knowledge bases for the first-order loop *)

Module Chain.
Import Fol Printed.







End Chain.

(** ** Meaning of formulas and clauses of the propositional engine *)

Module Meaning.
Import Wumpus.

(** The atoms of a formula of the binary grammar. *)
Fixpoint atoms (f : binary_formula) : gset string :=
  match f with
  | BAtom s => {[ s ]}
  | BNot a => atoms a
  | BAnd a b | BOr a b | BImplies a b | BIff a b => atoms a ∪ atoms b
  end.

(** No atom of [f] starts with the tilde that [_literal_to_string] puts in
    front of a negated literal. *)
Fixpoint tilde_free (f : binary_formula) : bool :=
  match f with
  | BAtom s => negb (Py.startswith "~" s)
  | BNot a => tilde_free a
  | BAnd a b | BOr a b | BImplies a b | BIff a b => tilde_free a && tilde_free b
  end.

(** Literals, clauses and conjunctive normal forms. *)
Definition is_literal (f : binary_formula) : bool :=
  match f with
  | BAtom _ | BNot (BAtom _) => true
  | _ => false
  end.

Fixpoint is_clause (f : binary_formula) : bool :=
  match f with
  | BOr a b => is_clause a && is_clause b
  | _ => is_literal f
  end.

Fixpoint is_cnf (f : binary_formula) : bool :=
  match f with
  | BAnd a b => is_cnf a && is_cnf b
  | _ => is_clause f
  end.

(** Formulas without IMPLIES and IFF, and formulas in which NOT is applied
    to such formulas only. *)
Fixpoint plain (f : binary_formula) : bool :=
  match f with
  | BAtom _ => true
  | BNot a => plain a
  | BAnd a b | BOr a b => plain a && plain b
  | BImplies _ _ | BIff _ _ => false
  end.

Fixpoint regular (f : binary_formula) : bool :=
  match f with
  | BAtom _ => true
  | BNot a => plain a
  | BAnd a b | BOr a b | BImplies a b | BIff a b => regular a && regular b
  end.

(** The truth value of a literal string: a leading tilde negates. *)
Fixpoint lit_true (facts : gset string) (s : string) : bool :=
  match s with
  | EmptyString => bool_decide (s ∈ facts)
  | String c r =>
      if Ascii.eqb c "~" then negb (lit_true facts r)
      else bool_decide (s ∈ facts)
  end.

(** A clause is true when one of its literals is. *)
Definition clause_true (facts : gset string) (c : gset string) : Prop :=
  ∃ l, l ∈ c ∧ lit_true facts l = true.

(** All sets of literals taken from [L]. *)
Definition all_subsets (L : gset string) : gset (gset string) :=
  list_to_set (list_to_set <$> powermset (elements L)).

(** The number of nodes of a formula. *)
Fixpoint nodes (f : binary_formula) : nat :=
  match f with
  | BAtom _ => 1
  | BNot a => S (nodes a)
  | BAnd a b | BOr a b | BImplies a b | BIff a b => S (nodes a + nodes b)
  end.

(** What a returned conversion keeps: the truth value, the atoms, and the
    normal form when NOT is applied to formulas without IMPLIES and IFF. *)
Definition kept (f g : binary_formula) : Prop :=
  (∀ facts, holds facts g = holds facts f)
  ∧ atoms g ⊆ atoms f
  ∧ (regular f = true → is_cnf g = true).

(** One of the formulas of a clause is true. *)
Definition some_holds (facts : gset string) (c : list binary_formula) : Prop :=
  Exists (λ h, holds facts h = true) c.

End Meaning.

(** * Properties *)

(** ** Loops and iteration orders *)

(** A sequence of two calls returns exactly when both return. *)
Lemma bind_Ret {A B} (r : result A) (k : A → result B) (b : B) :
  r ≫= k = Ret b ↔ ∃ a, r = Ret a ∧ k a = Ret b.
Proof.
  destruct r as [a| |]; simpl; split;
    [eauto | intros (? & [= ->] & ?); done | done | intros (? & [=] & _)
    | done | intros (? & [=] & _)].
Qed.

Section Loops.
Context {A B S : Type}.

(** Visiting a list in another order: [mapM] returns a permuted list,
    [foldM] the same state when its steps commute, and so does [foldM_exit]
    when it leaves no earlier. *)
Lemma mapM_perm (g : A → result B) (l l' : list A) :
  l ≡ₚ l' → ∀ vs, mapM g l = Ret vs → ∃ vs', mapM g l' = Ret vs' ∧ vs ≡ₚ vs'.
Proof.
  induction 1 as [|x l l' Hp IH|x y l|l l' l'' Hp1 IH1 Hp2 IH2]; intros vs Hvs.
  - exists vs. split; [exact Hvs | reflexivity].
  - simpl in Hvs. apply bind_Ret in Hvs as (v & Hv & Hvs).
    apply bind_Ret in Hvs as (ws & Hws & [= <-]).
    destruct (IH _ Hws) as (ws' & Hws' & Hperm).
    exists (v :: ws'). simpl. rewrite Hv. simpl. rewrite Hws'. simpl.
    split; [reflexivity | by constructor].
  - simpl in Hvs. apply bind_Ret in Hvs as (v & Hv & Hvs).
    apply bind_Ret in Hvs as (ws & Hws & [= <-]).
    apply bind_Ret in Hws as (w & Hw & Hws).
    apply bind_Ret in Hws as (us & Hus & [= <-]).
    exists (w :: v :: us). simpl. rewrite Hw, Hv. simpl. rewrite Hus. simpl.
    split; [reflexivity | apply perm_swap].
  - destruct (IH1 _ Hvs) as (vs' & Hvs' & Hperm').
    destruct (IH2 _ Hvs') as (vs'' & Hvs'' & Hperm'').
    exists vs''. split; [exact Hvs'' | by etrans].
Qed.

Lemma foldM_ext (f f' : A → S → result S) (l : list A) :
  (∀ x s v, f x s = Ret v → f' x s = Ret v) →
  ∀ s r, foldM f l s = Ret r → foldM f' l s = Ret r.
Proof.
  intros Hf. induction l as [|x l IH]; intros s r; simpl; [done|].
  intros (s1 & H1 & H2)%bind_Ret. rewrite (Hf _ _ _ H1). simpl. by apply IH.
Qed.

Lemma foldM_perm (f : A → S → result S) (l l' : list A) :
  (∀ x y s s1 s2, f x s = Ret s1 → f y s1 = Ret s2 →
     ∃ s1', f y s = Ret s1' ∧ f x s1' = Ret s2) →
  l ≡ₚ l' → ∀ s r, foldM f l s = Ret r → foldM f l' s = Ret r.
Proof.
  intros Hc. induction 1 as [|x l l' Hp IH|x y l|l l' l'' Hp1 IH1 Hp2 IH2];
    intros s r; simpl.
  - done.
  - intros (s1 & H1 & H2)%bind_Ret. rewrite H1. simpl. by apply IH.
  - intros (s1 & H1 & (s2 & H2 & H3)%bind_Ret)%bind_Ret.
    destruct (Hc _ _ _ _ _ H1 H2) as (s1' & H1' & H2').
    rewrite H1'. simpl. rewrite H2'. simpl. exact H3.
  - intros H. by apply IH2, IH1.
Qed.

Lemma foldM_exit_ext (f f' : A → S → result (option S)) (l : list A) :
  (∀ x s v, f x s = Ret v → f' x s = Ret v) →
  ∀ s r, foldM_exit f l s = Ret r → foldM_exit f' l s = Ret r.
Proof.
  intros Hf. induction l as [|x l IH]; intros s r; simpl; [done|].
  intros (o & H1 & H2)%bind_Ret. rewrite (Hf _ _ _ H1). simpl.
  destruct o; [by apply IH | done].
Qed.

Lemma foldM_exit_perm (f : A → S → result (option S)) (Q : A → Prop) (l l' : list A) :
  (∀ x y s s1 s2, Q x → Q y → x ≠ y →
     f x s = Ret (Some s1) → f y s1 = Ret (Some s2) →
     ∃ s1', f y s = Ret (Some s1') ∧ f x s1' = Ret (Some s2)) →
  l ≡ₚ l' → Forall Q l → NoDup l →
  ∀ s r, foldM_exit f l s = Ret (Some r) → foldM_exit f l' s = Ret (Some r).
Proof.
  intros Hc. induction 1 as [|x l l' Hp IH|x y l|l l' l'' Hp1 IH1 Hp2 IH2];
    intros HQ Hnd s r; simpl.
  - done.
  - intros (o & H1 & H2)%bind_Ret. rewrite H1. simpl.
    destruct o as [s1|]; [|done].
    apply IH; [by eapply Forall_inv_tail | by eapply NoDup_cons_1_2 | done].
  - intros (o1 & H1 & H3)%bind_Ret. destruct o1 as [s1|]; [|done].
    apply bind_Ret in H3 as (o2 & H2 & H3). destruct o2 as [s2|]; [|done].
    apply Forall_cons in HQ as [Qy HQ]. apply Forall_cons in HQ as [Qx HQ].
    apply NoDup_cons in Hnd as [Hy Hnd].
    assert (y ≠ x) as Hne by (intros ->; apply Hy; left).
    destruct (Hc _ _ _ _ _ Qy Qx Hne H1 H2) as (s1' & H1' & H2').
    rewrite H1'. simpl. rewrite H2'. simpl. exact H3.
  - intros H. apply IH2; [by rewrite <-Hp1 | by rewrite <-Hp1 |].
    by apply IH1.
Qed.

Lemma bind_perm_ext (f g : A → list B) (l l' : list A) :
  (∀ x, f x ≡ₚ g x) → l ≡ₚ l' → l ≫= f ≡ₚ l' ≫= g.
Proof.
  intros Hfg Hl. rewrite <-Hl. clear Hl l'.
  induction l as [|x l IH]; [done|].
  rewrite !bind_cons. by rewrite IH, Hfg.
Qed.

End Loops.

(** Two orders visit the same elements, each once. *)
Lemma iter_order {A} `{Countable A} (o o' : set_order) (X : gset A) :
  iter o X ≡ₚ iter o' X.
Proof. by rewrite !iter_perm. Qed.

Lemma elem_of_iter {A} `{Countable A} (o : set_order) (X : gset A) (x : A) :
  x ∈ iter o X ↔ x ∈ X.
Proof. by rewrite iter_perm, elem_of_elements. Qed.

Lemma NoDup_iter {A} `{Countable A} (o : set_order) (X : gset A) : NoDup (iter o X).
Proof. rewrite iter_perm. apply NoDup_elements. Qed.

Lemma iter_singleton {A} `{Countable A} (o : set_order) (x : A) : iter o {[x]} = [x].
Proof.
  apply Permutation_singleton_r. by rewrite iter_perm, elements_singleton.
Qed.

(** ** The first-order engine *)

Module FolFacts.
Import Fol.

(** *** [resolve] and the order of iteration

    When [resolve] returns in one order of iteration, it returns the same
    set in every order. *)

Lemma resolvent_order (o o' : set_order) fuel c1 c2 p v :
  resolvent o fuel c1 c2 p = Ret v → resolvent o' fuel c1 c2 p = Ret v.
Proof.
  unfold resolvent. destruct p as [l1 l2].
  destruct (complementary l1 l2) as [[s1 s2]|]; [|done].
  intros (d & Hd & H)%bind_Ret. rewrite Hd. simpl.
  apply bind_Ret in H as (lits & Hl & [= <-]).
  destruct (mapM_perm _ _ _ (iter_order o o' _) _ Hl) as (lits' & Hl' & Hp).
  rewrite Hl'. simpl. do 2 f_equal. apply list_to_set_perm_L. by symmetry.
Qed.

Lemma resolve_order (o o' : set_order) fuel c1 c2 r :
  resolve o fuel c1 c2 = Ret r → resolve o' fuel c1 c2 = Ret r.
Proof.
  unfold resolve. intros H.
  apply (foldM_ext (resolve_step o fuel c1 c2)).
  { intros p s v. unfold resolve_step. intros (x & Hx & Hv)%bind_Ret.
    by rewrite (resolvent_order _ o' _ _ _ _ _ Hx). }
  revert H. apply foldM_perm.
  - intros x y s s1 s2. unfold resolve_step.
    intros (a & Ha & H1)%bind_Ret (b & Hb & H2)%bind_Ret.
    rewrite Ha, Hb. simpl.
    destruct a as [a|], b as [b|]; injection H1 as <-; injection H2 as <-;
      eexists; (split; [reflexivity|]); f_equal; set_solver.
  - apply bind_perm_ext; [|apply iter_order].
    intros x. apply bind_perm_ext; [done | apply iter_order].
Qed.

(** *** One round of the refutation loop

    A round whose frontier is a single clause has the same outcome in every
    order; a round in which some pair of a frontier clause and an older
    clause resolves to the empty clause returns True in every order,
    provided no call of [resolve] fails. *)

Lemma bind_pair {A B} (x : A) (l : list B) :
  (l ≫= λ y, [(x, y)]) = pair x <$> l.
Proof. induction l as [|y l IH]; [done|]. rewrite bind_cons, IH. done. Qed.

Lemma round_step_order (o o' : set_order) fuel clauses p st v :
  round_step o fuel clauses p st = Ret v → round_step o' fuel clauses p st = Ret v.
Proof.
  unfold round_step. destruct p as [ci cj], st as [P N].
  destruct (decide (ci = cj)); [done|].
  destruct (decide ({[ci; cj]} ∈ P)); [done|].
  intros (r & Hr & H)%bind_Ret. by rewrite (resolve_order _ o' _ _ _ _ Hr).
Qed.

Lemma round_step_grows o fuel clauses p P N P' N' :
  round_step o fuel clauses p (P, N) = Ret (Some (P', N')) → P ⊆ P'.
Proof.
  unfold round_step. destruct p as [ci cj].
  destruct (decide (ci = cj)); [by intros [= <- <-]|].
  destruct (decide ({[ci; cj]} ∈ P)); [by intros [= <- <-]|].
  intros (r & Hr & H)%bind_Ret.
  destruct (decide (∅ ∈ r)); [done|]. injection H as <- <-. set_solver.
Qed.

Lemma pair_eq_inv (ci a b : clause) :
  ({[ci; a]} : gset clause) = {[ci; b]} → a = b ∨ b = ci.
Proof.
  intros H. assert (b ∈ ({[ci; a]} : gset clause)) as Hb.
  { rewrite H. apply elem_of_union_r, elem_of_singleton. reflexivity. }
  apply elem_of_union in Hb as [Hb%elem_of_singleton|Hb%elem_of_singleton]; auto.
Qed.

Lemma round_step_comm o fuel clauses ci x y s s1 s2 :
  x.1 = ci → y.1 = ci → x ≠ y →
  round_step o fuel clauses x s = Ret (Some s1) →
  round_step o fuel clauses y s1 = Ret (Some s2) →
  ∃ s1', round_step o fuel clauses y s = Ret (Some s1')
         ∧ round_step o fuel clauses x s1' = Ret (Some s2).
Proof.
  destruct x as [? a], y as [? b], s as [P N]. cbn [fst]. intros -> -> Hne.
  assert (a ≠ b) as Hab by congruence. clear Hne.
  unfold round_step at 1.
  destruct (decide (ci = a)) as [->|Ha].
  { intros [= <-] H. exists s2. split; [done|].
    unfold round_step. destruct s2. by rewrite decide_True. }
  destruct (decide ({[ci; a]} ∈ P)) as [Hin|Hnin].
  { intros [= <-] H. exists s2. split; [done|]. destruct s2 as [P2 N2].
    apply round_step_grows in H as HP.
    unfold round_step. rewrite decide_False by done.
    rewrite decide_True by set_solver. done. }
  intros (ra & Hra & H)%bind_Ret.
  destruct (decide (∅ ∈ ra)) as [|Hea]; [done|]. injection H as <-.
  unfold round_step at 1.
  destruct (decide (ci = b)) as [->|Hb].
  { intros [= <-]. exists (P, N). split.
    - unfold round_step. by rewrite decide_True.
    - unfold round_step. rewrite decide_False by done.
      rewrite decide_False by done. rewrite Hra. simpl.
      by rewrite decide_False. }
  destruct (decide ({[ci; b]} ∈ P ∪ {[{[ci; a]}]})) as [Hin|Hnin'].
  { intros [= <-]. exists (P, N).
    assert ({[ci; b]} ∈ P) as HbP.
    { apply elem_of_union in Hin as [|Heq%elem_of_singleton]; [done|].
      symmetry in Heq. apply pair_eq_inv in Heq as [|]; congruence. }
    split.
    - unfold round_step. rewrite decide_False by done. by rewrite decide_True.
    - unfold round_step. rewrite decide_False by done.
      rewrite decide_False by done. rewrite Hra. simpl. by rewrite decide_False. }
  intros (rb & Hrb & H)%bind_Ret.
  destruct (decide (∅ ∈ rb)) as [|Heb]; [done|]. injection H as <-.
  exists (P ∪ {[{[ci; b]}]}, N ∪ rb ∖ clauses). split.
  - unfold round_step. rewrite decide_False by done.
    rewrite decide_False by set_solver. rewrite Hrb. simpl.
    by rewrite decide_False.
  - unfold round_step. rewrite decide_False by done.
    rewrite decide_False.
    2:{ intros [|Heq%elem_of_singleton]%elem_of_union; [done|].
        apply pair_eq_inv in Heq as [|]; congruence. }
    rewrite Hra. simpl. rewrite decide_False by done.
    do 3 f_equal; set_solver.
Qed.

Lemma round_single (o : set_order) fuel clauses ci st :
  round sorted fuel clauses {[ci]} = Ret (Some st) →
  round o fuel clauses {[ci]} = Ret (Some st).
Proof.
  unfold round. rewrite !iter_singleton. simpl. rewrite !app_nil_r, !bind_pair.
  intros H. apply (foldM_exit_ext (round_step sorted fuel clauses)).
  { intros. by eapply round_step_order. }
  revert H. apply (foldM_exit_perm _ (λ p, p.1 = ci)).
  - intros. by eapply round_step_comm.
  - apply fmap_Permutation. symmetry. apply iter_perm.
  - apply Forall_fmap, Forall_true. done.
  - apply NoDup_fmap_2; [|apply NoDup_elements]. by intros ?? [=].
Qed.

Lemma pair_eq_inv2 (ci cj a b : clause) :
  ci ≠ cj → ({[ci; cj]} : gset clause) = {[a; b]} →
  (a, b) = (ci, cj) ∨ (a, b) = (cj, ci).
Proof.
  intros Hne H.
  assert (ci ∈ ({[a; b]} : gset clause)) as Hi
    by (rewrite <-H; apply elem_of_union_l, elem_of_singleton; reflexivity).
  assert (cj ∈ ({[a; b]} : gset clause)) as Hj
    by (rewrite <-H; apply elem_of_union_r, elem_of_singleton; reflexivity).
  apply elem_of_union in Hi as [Hi%elem_of_singleton|Hi%elem_of_singleton];
    apply elem_of_union in Hj as [Hj%elem_of_singleton|Hj%elem_of_singleton];
    subst; auto; congruence.
Qed.

Lemma foldM_exit_found o fuel clauses ci cj (l : list (clause * clause)) :
  ci ≠ cj →
  (∃ r, resolve o fuel ci cj = Ret r ∧ ∅ ∈ r) →
  ∀ st, (ci, cj) ∈ l → (cj, ci) ∉ l →
  (∀ a b, (a, b) ∈ l → a ≠ b → ∃ r, resolve o fuel a b = Ret r) →
  {[ci; cj]} ∉ st.1 →
  foldM_exit (round_step o fuel clauses) l st = Ret None.
Proof.
  intros Hne (r0 & Hr0 & He0).
  induction l as [|[a b] l IH]; intros [P N] Hin Hswap Hok HP.
  { by apply elem_of_nil in Hin. }
  assert (∀ st', (a, b) ≠ (ci, cj) → {[ci; cj]} ∉ st'.1 →
            foldM_exit (round_step o fuel clauses) l st' = Ret None) as Hrest.
  { intros st' Hp HP'. apply IH; [|set_solver|set_solver|done].
    apply elem_of_cons in Hin as [|]; congruence. }
  cbn [foldM_exit fst] in *.
  set (rest := foldM_exit (round_step o fuel clauses) l) in *.
  unfold round_step.
  destruct (decide (a = b)) as [->|Hab].
  { simpl. apply Hrest; [congruence | done]. }
  destruct (decide ({[a; b]} ∈ P)) as [HinP|HninP].
  { simpl. apply Hrest; [|done]. intros [= -> ->]. done. }
  destruct (Hok a b) as (r & Hr); [left|done|]. rewrite Hr. simpl.
  destruct (decide (∅ ∈ r)) as [|Her]; [done|]. simpl.
  assert ((a, b) ≠ (ci, cj)) as Hp by (intros [= -> ->]; congruence).
  apply Hrest; [done|]. simpl.
  intros [|Heq%elem_of_singleton]%elem_of_union; [done|].
  destruct (pair_eq_inv2 _ _ _ _ Hne Heq) as [?|Heq']; [done|].
  apply Hswap. rewrite <-Heq'. left.
Qed.

Lemma is_ret_true {A} (r : result A) : is_ret r = true → ∃ a, r = Ret a.
Proof. destruct r; [eauto|done|done]. Qed.

Lemma round_found (o : set_order) fuel clauses new ci cj :
  ci ∈ new → cj ∈ clauses → cj ∉ new → ci ≠ cj →
  all_resolve fuel new clauses = true →
  derives_empty fuel ci cj = true →
  round o fuel clauses new = Ret None.
Proof.
  intros Hi Hj Hjn Hne Hall Hde. unfold round.
  apply (foldM_exit_found _ _ _ ci cj); [done| | | | |set_solver].
  - unfold derives_empty in Hde.
    destruct (resolve sorted fuel ci cj) as [r| |] eqn:Hr; [|done|done].
    exists r. split; [by eapply resolve_order|]. by apply bool_decide_eq_true in Hde.
  - apply list_elem_of_bind. exists ci. split; [|by apply elem_of_iter].
    apply list_elem_of_bind. exists cj. split; [left|by apply elem_of_iter].
  - intros (x & (y & [= <- <-]%list_elem_of_singleton & _)%list_elem_of_bind
              & Hx%elem_of_iter)%list_elem_of_bind. done.
  - intros a b (x & (y & [= <- <-]%list_elem_of_singleton & Hy%elem_of_iter)%list_elem_of_bind
              & Hx%elem_of_iter)%list_elem_of_bind Hab.
    unfold all_resolve in Hall. rewrite forallb_forall in Hall.
    apply elem_of_elements, list_elem_of_In, Hall in Hx.
    rewrite forallb_forall in Hx.
    apply elem_of_elements, list_elem_of_In, Hx in Hy.
    apply orb_true_iff in Hy as [Heq%bool_decide_eq_true|Hret]; [done|].
    apply is_ret_true in Hret as [r Hr]. exists r. by eapply resolve_order.
Qed.

(** *** The loop, round by round *)

Lemma saturate_found o n fuel clauses new :
  round o fuel clauses new = Ret None →
  saturate o (S n) fuel clauses new = Ret true.
Proof. intros H. simpl. by rewrite H. Qed.

Lemma saturate_next o n fuel clauses new P N :
  round o fuel clauses new = Ret (Some (P, N)) → N ≠ ∅ →
  saturate o (S n) fuel clauses new = saturate o n fuel (clauses ∪ N) N.
Proof. intros H HN. simpl. rewrite H. simpl. by rewrite decide_False. Qed.

Lemma saturate_single (o : set_order) n fuel clauses ci N :
  round_yields fuel clauses {[ci]} N = true → bool_decide (N = ∅) = false →
  saturate o (S n) fuel clauses {[ci]} = saturate o n fuel (clauses ∪ N) N.
Proof.
  unfold round_yields. intros H HN%bool_decide_eq_false.
  destruct (round sorted fuel clauses {[ci]}) as [[[P N']|]| |] eqn:E; try done.
  apply bool_decide_eq_true in H as ->.
  apply (round_single o) in E. by eapply saturate_next.
Qed.

Lemma round_single_yields (o : set_order) fuel clauses ci N :
  round_yields fuel clauses {[ci]} N = true →
  ∃ P, round o fuel clauses {[ci]} = Ret (Some (P, N)).
Proof.
  unfold round_yields. intros H.
  destruct (round sorted fuel clauses {[ci]}) as [[[P N']|]| |] eqn:E; try done.
  apply bool_decide_eq_true in H as ->.
  apply (round_single o) in E. by exists P.
Qed.

Lemma kb_king_three_rounds (o : set_order) :
  inference_by_resolution o 3 1 kb_king query_evil = Ret true.
Proof.
  unfold inference_by_resolution.
  set (kb := prepare_kb_with_negated_query kb_king query_evil).
  set (clauses := list_to_set (list_to_set <$> kb) : gset clause).
  set (nq := list_to_set (List.last kb []) : clause).
  rewrite (saturate_single o _ _ _ _ {[ {[ Neg "King(John)"; Neg "Greedy(John)" ]} ]})
    by (vm_compute; reflexivity).
  rewrite (saturate_single o _ _ _ _
             {[ {[ Neg "Greedy(John)" ]}; {[ Neg "King(John)" ]} ]})
    by (vm_compute; reflexivity).
  apply saturate_found.
  apply (round_found _ _ _ _ {[ Neg "Greedy(John)" ]} {[ "Greedy(John)" ]}).
  - compute_done.
  - compute_done.
  - compute_done.
  - compute_done.
  - vm_compute. reflexivity.
  - vm_compute. reflexivity.
Qed.

Lemma kb_king_two_rounds (o : set_order) :
  inference_by_resolution o 2 1 kb_king query_evil = OutOfFuel.
Proof.
  unfold inference_by_resolution.
  rewrite (saturate_single o _ _ _ _ {[ {[ Neg "King(John)"; Neg "Greedy(John)" ]} ]})
    by (vm_compute; reflexivity).
  rewrite (saturate_single o _ _ _ _
             {[ {[ Neg "Greedy(John)" ]}; {[ Neg "King(John)" ]} ]})
    by (vm_compute; reflexivity).
  reflexivity.
Qed.

Lemma resolve_yields_true (o : set_order) fuel c1 c2 r :
  resolve_yields fuel c1 c2 r = true → resolve o fuel c1 c2 = Ret r.
Proof.
  unfold resolve_yields. intros H. apply (resolve_order sorted).
  destruct (resolve sorted fuel c1 c2); [|done|done].
  by apply bool_decide_eq_true in H as ->.
Qed.

(** *** Variables and bindings *)

Lemma all_alpha_Forall (s : string) :
  Py.all_alpha s = true ↔ Forall (λ c, Py.isalpha_char c = true) (Py.chars s).
Proof.
  induction s as [|c s IH]; simpl.
  - split; [constructor | done].
  - rewrite andb_true_iff, IH, Forall_cons. done.
Qed.

Lemma is_variable_spec (term : string) :
  is_variable term = true
  ↔ term ≠ EmptyString
    ∧ Forall (λ c, Py.isalpha_char c = true) (Py.chars term)
    ∧ ∃ c, head (Py.chars term) = Some c ∧ Py.islower_char c = true.
Proof.
  unfold is_variable. destruct term as [|c r].
  - split; [done | by intros [? _]].
  - rewrite andb_true_iff. unfold Py.isalpha. rewrite all_alpha_Forall. simpl.
    split.
    + intros [Hl Ha]. split; [done|]. split; [done|]. by exists c.
    + intros (_ & Ha & c' & [= <-] & Hl). done.
Qed.

Lemma digit_or_paren_not_alpha (c : ascii) :
  Py.isdigit_ascii c = true ∨ c = "("%char ∨ c = ")"%char →
  Py.isalpha_char c = false.
Proof.
  intros [H|[->| ->]]; [|done|done].
  destruct c as [[] [] [] [] [] [] [] []]; vm_compute in H; try discriminate H;
    reflexivity.
Qed.

Lemma not_variable_with (term : string) (c : ascii) :
  c ∈ Py.chars term →
  Py.isdigit_ascii c = true ∨ c = "("%char ∨ c = ")"%char →
  is_variable term = false.
Proof.
  intros Hin Hc. apply not_true_is_false. intros (_ & Ha & _)%is_variable_spec.
  rewrite Forall_forall in Ha. apply Ha in Hin.
  apply digit_or_paren_not_alpha in Hc. congruence.
Qed.

Lemma apply_substitution_to_term_other (term : string) (s : subst) :
  is_variable term = false → apply_substitution_to_term term s = term.
Proof. unfold apply_substitution_to_term. by intros ->. Qed.

Lemma binds_variables_refl s : binds_variables s s.
Proof. intros k. auto. Qed.

Lemma binds_variables_trans s1 s2 s3 :
  binds_variables s1 s2 → binds_variables s2 s3 → binds_variables s1 s3.
Proof. intros H12 H23 k [Hk|Hk]%H23; auto. Qed.

Lemma binds_variables_insert s k v :
  is_variable k = true → binds_variables s (<[k := v]> s).
Proof.
  intros Hk k'. destruct (decide (k = k')) as [<-|Hne]; [auto|].
  rewrite lookup_insert_ne by done. auto.
Qed.

Lemma unify_each_binds_variables (u : string → string → subst → result (bool * subst)) :
  (∀ a b s ok s', u a b s = Ret (ok, s') → binds_variables s s') →
  ∀ pairs s ok s', unify_each u pairs s = Ret (ok, s') → binds_variables s s'.
Proof.
  intros Hu. induction pairs as [|[a b] pairs IH]; intros s ok s'; simpl.
  - intros [= _ <-]. apply binds_variables_refl.
  - intros ([ok1 s1] & H1 & H2)%bind_Ret. apply Hu in H1.
    destruct ok1.
    + apply IH in H2. by eapply binds_variables_trans.
    + by injection H2 as _ <-.
Qed.

Lemma unify_terms_binds_variables (fuel : nat) :
  ∀ term1 term2 s ok s',
    unify_terms fuel term1 term2 s = Ret (ok, s') → binds_variables s s'.
Proof.
  induction fuel as [|n IH]; intros term1 term2 s ok s'; simpl; [done|].
  destruct (String.eqb _ _).
  { intros [= _ <-]. apply binds_variables_refl. }
  destruct (is_variable (apply_substitution_to_term term1 s)) eqn:H1.
  { intros [= _ <-]. by apply binds_variables_insert. }
  destruct (is_variable (apply_substitution_to_term term2 s)) eqn:H2.
  { intros [= _ <-]. by apply binds_variables_insert. }
  destruct (parse_sentence (apply_substitution_to_term term1 s)) as [[p1|] args1];
    destruct (parse_sentence (apply_substitution_to_term term2 s)) as [[p2|] args2];
    try (intros [= _ <-]; apply binds_variables_refl).
  destruct (_ && _).
  - apply unify_each_binds_variables. exact IH.
  - intros [= _ <-]. apply binds_variables_refl.
Qed.

Lemma unify_binds_variables fuel sentence1 sentence2 s :
  unify fuel sentence1 sentence2 = Ret s → ∀ k, is_Some (s !! k) → is_variable k = true.
Proof.
  unfold unify, unify_branch.
  destruct (parse_sentence sentence1) as [p1 args1].
  destruct (parse_sentence sentence2) as [p2 args2].
  assert (∀ k, is_Some ((∅ : subst) !! k) → is_variable k = true) as Hempty.
  { intros k [v Hv]. by rewrite lookup_empty in Hv. }
  destruct (negb (bool_decide _)); [by intros [= <-]|].
  destruct (negb (Nat.eqb _ _)); [by intros [= <-]|].
  intros (o & ([ok s1] & H1 & H2)%bind_Ret & [= <-])%bind_Ret.
  destruct ok; injection H2 as <-; [|done].
  apply unify_each_binds_variables in H1; [|apply unify_terms_binds_variables].
  intros k [Hk|Hk]%H1; [|done]. by apply Hempty.
Qed.

(** *** The number of rounds the model follows *)




(** *** The examples of the specification *)

(** C6. [unify] on Parent(x,y) and Parent(John,Mary) takes the successful
    branch and returns exactly the substitution x to John, y to Mary; on
    Loves(father(x),x) and Loves(father(John),John) it takes the successful
    branch and returns exactly x to John, the compound term father(x) being
    unified argument by argument with father(John).  Both hold with and
    without a blank after the commas. *)
Theorem unify_examples :
  unify_branch 1 "Parent(x,y)" "Parent(John,Mary)"
    = Ret (Some {[ "x" := "John"; "y" := "Mary" ]})
  ∧ unify 1 "Parent(x,y)" "Parent(John,Mary)"
    = Ret {[ "x" := "John"; "y" := "Mary" ]}
  ∧ unify 1 "Parent(x, y)" "Parent(John, Mary)"
    = Ret {[ "x" := "John"; "y" := "Mary" ]}
  ∧ unify_branch 2 "Loves(father(x),x)" "Loves(father(John),John)"
    = Ret (Some {[ "x" := "John" ]})
  ∧ unify 2 "Loves(father(x),x)" "Loves(father(John),John)"
    = Ret {[ "x" := "John" ]}
  ∧ unify 2 "Loves(father(x), x)" "Loves(father(John), John)"
    = Ret {[ "x" := "John" ]}.
Proof. repeat apply conj; vm_compute; reflexivity. Qed.

(** C1. On Parent(x,x) and Parent(John,Mary) [unify] leaves through a
    failing branch, and the value it returns there is the empty dictionary:
    the very value it returns when it succeeds on two identical ground
    atoms.  The failure is not distinguishable from that success. *)
Theorem unify_failure_is_empty_dictionary :
  unify_branch 1 "Parent(x,x)" "Parent(John,Mary)" = Ret None
  ∧ unify 1 "Parent(x,x)" "Parent(John,Mary)" = Ret ∅
  ∧ unify_branch 1 "Parent(John,Mary)" "Parent(John,Mary)" = Ret (Some ∅)
  ∧ unify 1 "Parent(John,Mary)" "Parent(John,Mary)" = Ret ∅.
Proof. repeat apply conj; vm_compute; reflexivity. Qed.

(** C2. The literals ¬P(A) and P(B) are complementary and their
    unification fails, yet [resolve] adds a resolvent for the pair: the
    empty clause. *)
Theorem resolve_adds_resolvent_of_failed_pair (o : set_order) :
  complementary (Neg "P(A)") "P(B)" = Some ("P(A)", "P(B)")
  ∧ unify_branch 1 "P(A)" "P(B)" = Ret None
  ∧ resolve o 1 {[ Neg "P(A)" ]} {[ "P(B)" ]} = Ret {[ ∅ ]}.
Proof.
  split; [reflexivity|]. split; [reflexivity|].
  apply resolve_yields_true. vm_compute. reflexivity.
Qed.

(** C5. [parse_sentence] splits P(f(a, b), c) at the comma inside the
    nested parentheses: it returns three arguments instead of two.  As a
    consequence P(f(x, A)) and P(f(B, y)) do not unify. *)
Theorem parse_sentence_splits_inside_nested_term :
  parse_sentence "P(f(a, b), c)" = (Some "P", ["f(a"; "b)"; "c"])
  ∧ unify_branch 3 "P(f(x, A))" "P(f(B, y))" = Ret None.
Proof. split; vm_compute; reflexivity. Qed.

(** C7. Resolving the clause of ¬King(x), ¬Greedy(x) and Evil(x) with the
    clause of King(John) yields exactly one resolvent, the clause of
    ¬Greedy(John) and Evil(John), in every order of iteration. *)
Theorem resolve_king_example (o : set_order) :
  resolve o 1 {[ Neg "King(x)"; Neg "Greedy(x)"; "Evil(x)" ]} {[ "King(John)" ]}
  = Ret {[ {[ Neg "Greedy(John)"; "Evil(John)" ]} ]}.
Proof. apply resolve_yields_true. vm_compute. reflexivity. Qed.

(** C8. For the knowledge base of ¬King(x) ∨ ¬Greedy(x) ∨ Evil(x),
    King(John) and Greedy(John) and the query Evil(John), in every order of
    iteration: the first round resolves the negated query ¬Evil(John) with
    the rule and adds the clause of ¬King(John) and ¬Greedy(John); the
    second round resolves that clause with the two facts and adds the
    clauses of ¬Greedy(John) and of ¬King(John); neither round ends the
    loop; in the third round ¬Greedy(John) and Greedy(John) resolve to the
    empty clause, the round leaves through [return True], and the loop
    returns True. *)
Theorem king_john_is_evil (o : set_order) :
  let clauses : gset clause :=
    list_to_set (list_to_set <$> prepare_kb_with_negated_query kb_king query_evil) in
  let first : gset clause := {[ {[ Neg "King(John)"; Neg "Greedy(John)" ]} ]} in
  let second : gset clause := {[ {[ Neg "Greedy(John)" ]}; {[ Neg "King(John)" ]} ]} in
  resolve o 1 {[ Neg "Evil(John)" ]} {[ Neg "King(x)"; Neg "Greedy(x)"; "Evil(x)" ]}
    = Ret first
  ∧ (∃ pairs, round o 1 clauses {[ {[ Neg "Evil(John)" ]} ]} = Ret (Some (pairs, first)))
  ∧ resolve o 1 {[ Neg "King(John)"; Neg "Greedy(John)" ]} {[ "King(John)" ]}
    = Ret {[ {[ Neg "Greedy(John)" ]} ]}
  ∧ resolve o 1 {[ Neg "King(John)"; Neg "Greedy(John)" ]} {[ "Greedy(John)" ]}
    = Ret {[ {[ Neg "King(John)" ]} ]}
  ∧ (∃ pairs, round o 1 (clauses ∪ first) first = Ret (Some (pairs, second)))
  ∧ inference_by_resolution o 2 1 kb_king query_evil = OutOfFuel
  ∧ resolve o 1 {[ Neg "Greedy(John)" ]} {[ "Greedy(John)" ]} = Ret {[ ∅ ]}
  ∧ round o 1 (clauses ∪ first ∪ second) second = Ret None
  ∧ inference_by_resolution o 3 1 kb_king query_evil = Ret true.
Proof.
  cbv zeta. repeat apply conj.
  - apply resolve_yields_true. vm_compute. reflexivity.
  - apply round_single_yields. vm_compute. reflexivity.
  - apply resolve_yields_true. vm_compute. reflexivity.
  - apply resolve_yields_true. vm_compute. reflexivity.
  - apply round_single_yields. vm_compute. reflexivity.
  - apply kb_king_two_rounds.
  - apply resolve_yields_true. vm_compute. reflexivity.
  - apply (round_found _ _ _ _ {[ Neg "Greedy(John)" ]} {[ "Greedy(John)" ]}).
    + compute_done.
    + compute_done.
    + compute_done.
    + compute_done.
    + vm_compute. reflexivity.
    + vm_compute. reflexivity.
  - apply kb_king_three_rounds.
Qed.

(** C10. A term is a variable exactly when it is not empty, all its
    characters are alphabetic and its first character is lower case.  A term
    with a digit or a parenthesis is therefore no variable; a term that is no
    variable is left unchanged by the substitution lookup; and the keys that
    [unify_terms] and [unify] add to a dictionary are variables. *)
Theorem variables_are_lowercase_words (term : string) :
  (is_variable term = true
   ↔ term ≠ EmptyString
     ∧ Forall (λ c, Py.isalpha_char c = true) (Py.chars term)
     ∧ ∃ c, head (Py.chars term) = Some c ∧ Py.islower_char c = true)
  ∧ (∀ c, c ∈ Py.chars term →
       Py.isdigit_ascii c = true ∨ c = "("%char ∨ c = ")"%char →
       is_variable term = false)
  ∧ (is_variable term = false →
       ∀ s, apply_substitution_to_term term s = term)
  ∧ (∀ fuel term2 s ok s',
       unify_terms fuel term term2 s = Ret (ok, s') → binds_variables s s')
  ∧ (∀ fuel sentence2 s,
       unify fuel term sentence2 = Ret s →
       ∀ k, is_Some (s !! k) → is_variable k = true).
Proof.
  split; [apply is_variable_spec|].
  split; [apply not_variable_with|].
  split; [intros H s; by apply apply_substitution_to_term_other|].
  split; [intros fuel; apply unify_terms_binds_variables|].
  intros fuel. apply unify_binds_variables.
Qed.

Lemma variables_are_lowercase_words_witness :
  is_variable "x1" = false
  ∧ is_variable "father(x)" = false
  ∧ apply_substitution_to_term "x1" {[ "x1" := "John" ]} = "x1".
Proof.
  destruct (variables_are_lowercase_words "x1") as (_ & Hd & Hs & _).
  destruct (variables_are_lowercase_words "father(x)") as (_ & Hp & _).
  assert (is_variable "x1" = false) as H1.
  { apply (Hd "1"%char); [compute_done | left; reflexivity]. }
  split; [exact H1|]. split; [|exact (Hs H1 _)].
  apply (Hp "("%char); [compute_done | right; left; reflexivity].
Defined.

(** The variable x binds, the constant x1 does not, and father(x) is taken
    apart. *)
Example variable_examples :
  is_variable "x" = true
  ∧ unify_branch 1 "P(x)" "P(John)" = Ret (Some {[ "x" := "John" ]})
  ∧ unify_branch 1 "P(x1)" "P(John)" = Ret None
  ∧ unify_branch 2 "P(father(x))" "P(father(John))" = Ret (Some {[ "x" := "John" ]}).
Proof. repeat apply conj; vm_compute; reflexivity. Qed.


End FolFacts.

(** ** The propositional engine *)

Module WumpusFacts.
Import Wumpus.

(** *** Resolvents of two clauses: membership, order, symmetry *)

Lemma elem_of_resolve_fold ci cj (l : list (string * string)) acc c :
  c ∈ foldl (resolve_clauses_step ci cj) acc l
  ↔ c ∈ acc ∨ ∃ di dj, (di, dj) ∈ l ∧ resolvent_on ci cj di dj c.
Proof.
  revert acc. induction l as [|[di dj] l IH]; intros acc; cbn [foldl].
  - split; [auto|]. intros [?|(? & ? & []%elem_of_nil & _)]. done.
  - rewrite IH. unfold resolve_clauses_step, resolvent_on.
    destruct (String.eqb di ("~" +:+ dj) || String.eqb dj ("~" +:+ di)) eqn:E.
    + rewrite elem_of_union, elem_of_singleton. split.
      * intros [[?| ->]|(d1 & d2 & Hin & H)]; [auto| |].
        -- right. exists di, dj. split; [left|]. split; [|done].
           apply orb_true_iff in E as [E|E]; apply String.eqb_eq in E; auto.
        -- right. exists d1, d2. split; [by right | done].
      * intros [?|(d1 & d2 & [[= -> ->]|Hin]%elem_of_cons & H)]; [auto| |].
        -- left. right. by destruct H.
        -- right. eauto.
    + split.
      * intros [?|(d1 & d2 & Hin & H)]; [auto|]. right. exists d1, d2.
        split; [by right | done].
      * intros [?|(d1 & d2 & [[= -> ->]|Hin]%elem_of_cons & H)]; [auto| |].
        -- exfalso. apply orb_false_iff in E as [E1 E2].
           apply String.eqb_neq in E1, E2. by destruct H as [[|] _].
        -- right. eauto.
Qed.

Lemma elem_of_resolve_clauses (o : set_order) ci cj c :
  c ∈ resolve_clauses o ci cj
  ↔ ∃ di dj, di ∈ ci ∧ dj ∈ cj ∧ resolvent_on ci cj di dj c.
Proof.
  unfold resolve_clauses. rewrite elem_of_resolve_fold. split.
  - intros [[]%not_elem_of_empty|(di & dj & Hin & H)]. exists di, dj.
    apply list_elem_of_bind in Hin as (x & Hin & Hx%elem_of_iter).
    apply list_elem_of_bind in Hin as (y & [= <- <-]%list_elem_of_singleton & Hy%elem_of_iter).
    done.
  - intros (di & dj & Hi & Hj & H). right. exists di, dj. split; [|done].
    apply list_elem_of_bind. exists di. split; [|by apply elem_of_iter].
    apply list_elem_of_bind. exists dj. split; [left|by apply elem_of_iter].
Qed.

Lemma resolve_clauses_order (o o' : set_order) ci cj :
  resolve_clauses o ci cj = resolve_clauses o' ci cj.
Proof. apply set_eq. intros c. by rewrite !elem_of_resolve_clauses. Qed.

Lemma resolve_clauses_sym (o : set_order) ci cj :
  resolve_clauses o ci cj = resolve_clauses o cj ci.
Proof.
  apply set_eq. intros c. rewrite !elem_of_resolve_clauses. unfold resolvent_on.
  split; intros (di & dj & Hi & Hj & Hc & ->); exists dj, di;
    (split; [done|]); (split; [done|]); (split; [tauto|]); apply union_comm_L.
Qed.

(** *** One round: it depends on the clauses only up to their order *)

Lemma scan_spec (o : set_order) ps new :
  scan o ps new
  = if decide (∅ ∈ resolvents_of o ps) then None
    else Some (new ∪ resolvents_of o ps).
Proof.
  revert new. induction ps as [|[ci cj] ps IH]; intros new; simpl.
  - unfold resolvents_of. simpl. rewrite decide_False by set_solver.
    f_equal. set_solver.
  - unfold resolvents_of in *. simpl.
    destruct (decide (∅ ∈ resolve_clauses o ci cj)) as [He|He].
    + rewrite decide_True by set_solver. done.
    + rewrite IH. destruct (decide (∅ ∈ ⋃ _)) as [Hu|Hu].
      * rewrite decide_True by set_solver. done.
      * rewrite decide_False by set_solver. f_equal. set_solver.
Qed.

Lemma elem_of_resolvents_of (o : set_order) ps c :
  c ∈ resolvents_of o ps ↔ ∃ ci cj, (ci, cj) ∈ ps ∧ c ∈ resolve_clauses o ci cj.
Proof.
  unfold resolvents_of. rewrite elem_of_union_list. split.
  - intros (X & ([ci cj] & -> & Hin)%list_elem_of_fmap & Hc). eauto.
  - intros (ci & cj & Hin & Hc). exists (resolve_clauses o ci cj).
    split; [|done]. apply list_elem_of_fmap. by exists (ci, cj).
Qed.

Lemma elem_of_pairs_cons {A} (x : A) l a b :
  (a, b) ∈ pairs (x :: l) ↔ (a = x ∧ b ∈ l) ∨ (a, b) ∈ pairs l.
Proof.
  simpl. rewrite elem_of_app, list_elem_of_fmap. split.
  - intros [(y & [= -> ->] & Hy)|H]; auto.
  - intros [[-> Hb]|H]; [left; eauto | auto].
Qed.

Lemma pairs_perm {A} (l l' : list A) :
  l ≡ₚ l' → ∀ a b, (a, b) ∈ pairs l → (a, b) ∈ pairs l' ∨ (b, a) ∈ pairs l'.
Proof.
  induction 1 as [|x l l' Hp IH|x y l|l l' l'' Hp1 IH1 Hp2 IH2]; intros a b.
  - auto.
  - rewrite !elem_of_pairs_cons. intros [[-> Hb]|H].
    + left. left. by rewrite <-Hp.
    + destruct (IH _ _ H); auto.
  - rewrite !elem_of_pairs_cons, !elem_of_cons. naive_solver.
  - intros H. destruct (IH1 _ _ H) as [H'|H']; destruct (IH2 _ _ H'); auto.
Qed.

Lemma resolvents_of_pairs_perm (o o' : set_order) (l l' : list clause) :
  l ≡ₚ l' → resolvents_of o (pairs l) = resolvents_of o' (pairs l').
Proof.
  assert (∀ o o' (l l' : list clause), l ≡ₚ l' →
            resolvents_of o (pairs l) ⊆ resolvents_of o' (pairs l')) as Hsub.
  { clear. intros o o' l l' Hp c (ci & cj & Hin & Hc)%elem_of_resolvents_of.
    apply elem_of_resolvents_of.
    destruct (pairs_perm _ _ Hp _ _ Hin); [exists ci, cj | exists cj, ci];
      (split; [done|]).
    - by rewrite (resolve_clauses_order o' o).
    - by rewrite (resolve_clauses_order o' o), resolve_clauses_sym. }
  intros Hp. apply set_eq. intros c. split; apply Hsub; [done | by symmetry].
Qed.

(** *** The clauses added at the end of a round *)

Lemma filter_ext_in {A} (P Q : A → Prop)
    `{!∀ x, Decision (P x), !∀ x, Decision (Q x)} (l : list A) :
  (∀ x, x ∈ l → P x ↔ Q x) → filter P l = filter Q l.
Proof.
  induction l as [|a l IH]; intros HPQ; [done|].
  assert (filter P l = filter Q l) as Hl by (apply IH; intros; apply HPQ; by right).
  destruct (decide (P a)) as [Ha|Ha].
  - rewrite !filter_cons_True; [by rewrite Hl | by apply HPQ; [left|] | done].
  - rewrite !filter_cons_False; [done | intros ?%HPQ; [done | left] | done].
Qed.

Lemma append_new_filter (clauses new : list clause) :
  NoDup new → append_new clauses new = clauses ++ filter (λ c, c ∉ clauses) new.
Proof.
  unfold append_new. revert clauses.
  induction new as [|c new IH]; intros clauses Hnd; simpl.
  - by rewrite app_nil_r.
  - apply NoDup_cons in Hnd as [Hc Hnd].
    destruct (decide (c ∈ clauses)) as [Hin|Hnin].
    + rewrite IH by done. by rewrite filter_cons_False by auto.
    + rewrite IH by done. rewrite filter_cons_True by done.
      rewrite <-app_assoc. simpl. do 2 f_equal.
      apply filter_ext_in. intros x Hx.
      rewrite elem_of_app, list_elem_of_singleton. split; [tauto|].
      intros Hx' [?| ->]; auto.
Qed.

Lemma append_new_perm (clauses clauses' new new' : list clause) :
  NoDup new → clauses ≡ₚ clauses' → new ≡ₚ new' →
  append_new clauses new ≡ₚ append_new clauses' new'.
Proof.
  intros Hnd Hc Hn. rewrite !append_new_filter by (done || by rewrite <-Hn).
  rewrite <-Hn. apply Permutation_app; [done|].
  erewrite list_filter_iff; [done|]. intros x. simpl. by rewrite Hc.
Qed.

(** *** The loop is invariant under the order of the clauses and of the
    iteration over [new] *)

Lemma saturate_perm (o o' : set_order) (rounds : nat) :
  ∀ clauses clauses', clauses ≡ₚ clauses' →
    saturate o rounds clauses = saturate o' rounds clauses'.
Proof.
  induction rounds as [|n IH]; intros clauses clauses' Hp; simpl; [done|].
  rewrite !scan_spec. rewrite (resolvents_of_pairs_perm o o' _ _ Hp).
  destruct (decide (∅ ∈ _)); [done|].
  rewrite (list_to_set_perm_L clauses clauses') by done.
  destruct (decide (_ ⊆ _)); [done|].
  apply IH. apply append_new_perm; [apply NoDup_iter | done | apply iter_order].
Qed.

Lemma inference_by_resolution_order (o o' : set_order) rounds fuel kb query :
  inference_by_resolution o rounds fuel kb query
  = inference_by_resolution o' rounds fuel kb query.
Proof.
  unfold inference_by_resolution.
  destruct (foldM _ kb []) as [cs| |]; simpl; [|done|done].
  destruct (convert_to_cnf fuel (Not query)) as [nq| |]; simpl; [|done|done].
  destruct (extract_clauses fuel nq) as [cs'| |]; simpl; [|done|done].
  destruct (mapM _ (cs ++ cs')) as [clauses| |]; simpl; [|done|done].
  by apply saturate_perm.
Qed.



(** C9. With the knowledge base of A and IMPLIES(A,B) the propositional loop
    returns True for the query B and False for the query P21, and so it does
    with the knowledge base of the demonstration, which contains both
    sentences; in every order of iteration. *)
Theorem propositional_examples (o : set_order) :
  inference_by_resolution o 2 4 kb_ab (Atom "B") = Ret true
  ∧ inference_by_resolution o 2 4 kb_ab (Atom "P21") = Ret false
  ∧ inference_by_resolution o 2 8 initial_kb (Atom "B") = Ret true
  ∧ inference_by_resolution o 4 8 initial_kb (Atom "P21") = Ret false.
Proof.
  rewrite !(inference_by_resolution_order o sorted).
  repeat apply conj; vm_compute; reflexivity.
Qed.

End WumpusFacts.

(** ** The conversion to conjunctive normal form *)

Module CnfFacts.
Import Wumpus WumpusFacts.
#[local] Open Scope nat_scope.

(** [World.ask] on a formula of the binary grammar returns its truth
    value. *)
Lemma ask_tuple_of (facts : gset string) (f : binary_formula) :
  ask facts (tuple_of f) = Ret (PyBool (holds facts f)).
Proof.
  induction f as [s|a IHa|a IHa b IHb|a IHa b IHb|a IHa b IHb|a IHa b IHb];
    simpl; rewrite ?IHa; simpl; rewrite ?IHb; simpl; try reflexivity;
    destruct (holds facts a); simpl; rewrite ?IHb; try reflexivity;
    destruct (holds facts b); reflexivity.
Qed.

(** The recursion of [convert_to_cnf] as rules on [converts]: each rule
    needs one more level of depth than its premises. *)
Ltac deeper n :=
  exists (S n); intros [|m] Hm; [lia|]; simpl.

Lemma converts_atom s : converts (Atom s) (Atom s).
Proof. deeper 0%nat. done. Qed.

Lemma converts_and a b a' b' :
  converts a a' → converts b b' → converts (And a b) (And a' b').
Proof.
  intros [n1 H1] [n2 H2]. deeper (Nat.max n1 n2).
  rewrite H1, H2 by lia. done.
Qed.

Lemma converts_implies a b a' b' g :
  converts a a' → converts b b' → converts (Or (Not a') b') g →
  converts (Implies a b) g.
Proof.
  intros [n1 H1] [n2 H2] [n3 H3]. deeper (Nat.max n1 (Nat.max n2 n3)).
  rewrite H1, H2 by lia. simpl. apply H3. lia.
Qed.

Lemma converts_iff a b a' b' g :
  converts a a' → converts b b' →
  converts (And (Implies a' b') (Implies b' a')) g →
  converts (Iff a b) g.
Proof.
  intros [n1 H1] [n2 H2] [n3 H3]. deeper (Nat.max n1 (Nat.max n2 n3)).
  rewrite H1, H2 by lia. simpl. apply H3. lia.
Qed.

Lemma converts_not_atom s : converts (Not (Atom s)) (Not (Atom s)).
Proof. deeper 0%nat. done. Qed.

Lemma converts_not_not x g : converts x g → converts (Not (Not x)) g.
Proof. intros [n H]. deeper n. apply H. lia. Qed.

Lemma converts_not_and x y g :
  converts (Or (Not x) (Not y)) g → converts (Not (And x y)) g.
Proof. intros [n H]. deeper n. apply H. lia. Qed.

Lemma converts_not_or x y g :
  converts (And (Not x) (Not y)) g → converts (Not (Or x y)) g.
Proof. intros [n H]. deeper n. apply H. lia. Qed.

Lemma converts_not_implies x y c :
  converts (Implies x y) c → converts (Not (Implies x y)) (Not c).
Proof. intros [n H]. deeper n. rewrite H by lia. done. Qed.

Lemma converts_not_iff x y c :
  converts (Iff x y) c → converts (Not (Iff x y)) (Not c).
Proof. intros [n H]. deeper n. rewrite H by lia. done. Qed.

Lemma converts_or_left a b l1 l2 r g :
  converts a (And l1 l2) → converts b r →
  converts (And (Or l1 r) (Or l2 r)) g →
  converts (Or a b) g.
Proof.
  intros [n1 H1] [n2 H2] [n3 H3]. deeper (Nat.max n1 (Nat.max n2 n3)).
  rewrite H1, H2 by lia. simpl. apply H3. lia.
Qed.

Lemma converts_or_right a b l r1 r2 g :
  converts a l → operands_of "AND" l = None → converts b (And r1 r2) →
  converts (And (Or l r1) (Or l r2)) g →
  converts (Or a b) g.
Proof.
  intros [n1 H1] Hl [n2 H2] [n3 H3]. deeper (Nat.max n1 (Nat.max n2 n3)).
  rewrite H1, H2 by lia. simpl. rewrite Hl. simpl. apply H3. lia.
Qed.

Lemma converts_or a b l r :
  converts a l → operands_of "AND" l = None →
  converts b r → operands_of "AND" r = None →
  converts (Or a b) (Or l r).
Proof.
  intros [n1 H1] Hl [n2 H2] Hr. deeper (Nat.max n1 n2).
  rewrite H1, H2 by lia. simpl. rewrite Hl, Hr. done.
Qed.

(** *** The measure *)

Lemma pow2_ge_4 (n : nat) : 2 ≤ n → 4 ≤ 2 ^ n.
Proof. intros H. change 4 with (2 ^ 2). apply Nat.pow_le_mono_r; lia. Qed.

Lemma pow2_gt (n : nat) : n < 2 ^ n.
Proof. apply Nat.pow_gt_lin_r. lia. Qed.

Lemma weight_ge_2 (f : binary_formula) : 2 ≤ weight f.
Proof.
  induction f as [s|a IHa|a IHa b IHb|a IHa b IHb|a IHa b IHb|a IHa b IHb]; simpl;
    try pose proof (pow2_gt (weight a)); try pose proof (pow2_gt (weight b)); nia.
Qed.

Lemma operands_of_not_and (f : binary_formula) :
  is_and f = false → operands_of "AND" (tuple_of f) = None.
Proof. destruct f; simpl; done. Qed.

(** Every formula of the binary grammar is converted, into a formula of
    the binary grammar of no larger weight and of the same truth value.  By
    induction on a bound [w] of the weight: each recursive call is on a
    formula of smaller weight. *)
Lemma convert_to_cnf_bounded (w : nat) :
  ∀ f, weight f ≤ w →
    ∃ g, converts (tuple_of f) (tuple_of g)
         ∧ weight g ≤ weight f
         ∧ ∀ facts, holds facts g = holds facts f.
Proof.
  induction w as [|w IH]; intros f Hw.
  { pose proof (weight_ge_2 f). lia. }
  destruct f as [s|a|a b|a b|a b|a b].
  - exists (BAtom s). split; [apply converts_atom|]. done.
  - destruct a as [s|x|x y|x y|x y|x y].
    + exists (BNot (BAtom s)). split; [apply converts_not_atom|]. done.
    + simpl in Hw. pose proof (pow2_gt (weight x)). pose proof (pow2_gt (2 ^ weight x)).
      destruct (IH x) as (g & Hg & Hwg & Hh); [lia|].
      exists g. split; [by apply converts_not_not|]. split; [simpl; lia|].
      intros facts. rewrite Hh. simpl. by rewrite negb_involutive.
    + pose proof (weight_ge_2 x). pose proof (weight_ge_2 y).
      assert (weight (BOr (BNot x) (BNot y)) < weight (BNot (BAnd x y))) as Hlt.
      { simpl. rewrite <-Nat.pow_add_r.
        apply Nat.pow_lt_mono_r; lia. }
      destruct (IH (BOr (BNot x) (BNot y))) as (g & Hg & Hwg & Hh); [lia|].
      exists g. split; [by apply converts_not_and|]. split; [lia|].
      intros facts. rewrite Hh. simpl. by rewrite negb_andb.
    + pose proof (weight_ge_2 x) as Hx. pose proof (weight_ge_2 y) as Hy.
      assert (weight (BAnd (BNot x) (BNot y)) < weight (BNot (BOr x y))) as Hlt.
      { simpl. pose proof (pow2_ge_4 _ Hx). pose proof (pow2_ge_4 _ Hy).
        assert (2 ^ (weight x + weight y) ≤ 2 ^ (weight x * weight y))
          by (apply Nat.pow_le_mono_r; nia).
        rewrite Nat.pow_add_r in *. nia. }
      destruct (IH (BAnd (BNot x) (BNot y))) as (g & Hg & Hwg & Hh); [lia|].
      exists g. split; [by apply converts_not_or|]. split; [lia|].
      intros facts. rewrite Hh. simpl. by rewrite negb_orb.
    + pose proof (pow2_gt (weight (BImplies x y))).
      destruct (IH (BImplies x y)) as (g & Hg & Hwg & Hh); [simpl in *; lia|].
      exists (BNot g). split; [by apply converts_not_implies|].
      split; [by apply Nat.pow_le_mono_r|].
      intros facts. simpl. by rewrite Hh.
    + pose proof (pow2_gt (weight (BIff x y))).
      destruct (IH (BIff x y)) as (g & Hg & Hwg & Hh); [simpl in *; lia|].
      exists (BNot g). split; [by apply converts_not_iff|].
      split; [by apply Nat.pow_le_mono_r|].
      intros facts. simpl. by rewrite Hh.
  - simpl in Hw.
    destruct (IH a) as (a' & Ha & Hwa & Hha); [lia|].
    destruct (IH b) as (b' & Hb & Hwb & Hhb); [lia|].
    exists (BAnd a' b'). split; [by apply converts_and|]. split; [simpl; lia|].
    intros facts. simpl. by rewrite Hha, Hhb.
  - pose proof (weight_ge_2 a). pose proof (weight_ge_2 b). simpl in Hw.
    destruct (IH a) as (l & Ha & Hwa & Hha); [nia|].
    destruct (IH b) as (r & Hb & Hwb & Hhb); [nia|].
    pose proof (weight_ge_2 r).
    destruct (is_and l) eqn:Hl; [|destruct (is_and r) eqn:Hr].
    + destruct l as [| |l1 l2| | |]; try discriminate Hl. clear Hl.
      destruct (IH (BAnd (BOr l1 r) (BOr l2 r))) as (g & Hg & Hwg & Hh).
      { simpl in *. nia. }
      exists g. split.
      { eapply converts_or_left; eauto. }
      split; [simpl in *; nia|]. intros facts. rewrite Hh. simpl.
      rewrite <-Hha, <-Hhb. simpl.
      destruct (holds facts l1), (holds facts l2), (holds facts r); reflexivity.
    + destruct r as [| |r1 r2| | |]; try discriminate Hr. clear Hr.
      pose proof (weight_ge_2 l).
      destruct (IH (BAnd (BOr l r1) (BOr l r2))) as (g & Hg & Hwg & Hh).
      { simpl in *. nia. }
      exists g. split.
      { eapply converts_or_right; eauto using operands_of_not_and. }
      split; [simpl in *; nia|]. intros facts. rewrite Hh. simpl.
      rewrite <-Hha, <-Hhb. simpl.
      destruct (holds facts l), (holds facts r1), (holds facts r2); reflexivity.
    + exists (BOr l r). split.
      { apply converts_or; auto using operands_of_not_and. }
      split; [simpl; nia|]. intros facts. simpl. by rewrite Hha, Hhb.
  - pose proof (weight_ge_2 a). pose proof (weight_ge_2 b). simpl in Hw.
    pose proof (pow2_gt (weight a)).
    destruct (IH a) as (a' & Ha & Hwa & Hha); [nia|].
    destruct (IH b) as (b' & Hb & Hwb & Hhb); [nia|].
    assert (2 ^ weight a' ≤ 2 ^ weight a) by (apply Nat.pow_le_mono_r; lia).
    destruct (IH (BOr (BNot a') b')) as (g & Hg & Hwg & Hh).
    { simpl. nia. }
    exists g. split; [by eapply converts_implies|].
    split; [simpl in *; nia|]. intros facts. rewrite Hh. simpl.
    by rewrite Hha, Hhb.
  - pose proof (weight_ge_2 a). pose proof (weight_ge_2 b). simpl in Hw.
    pose proof (pow2_gt (weight a)). pose proof (pow2_gt (weight b)).
    destruct (IH a) as (a' & Ha & Hwa & Hha); [nia|].
    destruct (IH b) as (b' & Hb & Hwb & Hhb); [nia|].
    assert (2 ^ weight a' ≤ 2 ^ weight a) by (apply Nat.pow_le_mono_r; lia).
    assert (2 ^ weight b' ≤ 2 ^ weight b) by (apply Nat.pow_le_mono_r; lia).
    destruct (IH (BAnd (BImplies a' b') (BImplies b' a'))) as (g & Hg & Hwg & Hh).
    { simpl. nia. }
    exists g. split; [by eapply converts_iff|].
    split; [simpl in *; nia|]. intros facts. rewrite Hh. simpl.
    rewrite Hha, Hhb.
    destruct (holds facts a), (holds facts b); reflexivity.
Qed.

(** X27. On every formula in which NOT has one operand and AND, OR,
    IMPLIES and IFF have two, [convert_to_cnf] returns at every large enough
    depth, and [World.ask] gives its result and the formula the same value,
    whatever the facts. *)
Theorem convert_to_cnf_preserves_truth (f : binary_formula) :
  ∃ fuel g,
    (∀ m, fuel ≤ m → convert_to_cnf m (tuple_of f) = Ret g)
    ∧ ∀ facts, ask facts g = ask facts (tuple_of f).
Proof.
  destruct (convert_to_cnf_bounded (weight f) f) as (g & [n Hn] & _ & Hh); [done|].
  exists n, (tuple_of g). split; [done|].
  intros facts. by rewrite !ask_tuple_of, Hh.
Qed.

(** The example of the specification: the conversion of IFF(A,B). *)
Example iff_example :
  convert_to_cnf 5 (Iff (Atom "A") (Atom "B"))
  = Ret (And (Or (Not (Atom "A")) (Atom "B")) (Or (Not (Atom "B")) (Atom "A"))).
Proof. reflexivity. Qed.

Lemma ternary_and_example :
  let f := Or (Node "AND" [Atom "A"; Atom "B"; Atom "C"]) (Atom "D") in
  let g := And (Or (Atom "A") (Atom "D")) (Or (Atom "B") (Atom "D")) in
  convert_to_cnf 4 f = Ret g
  ∧ ask {[ "A"; "B" ]} f = Ret (PyBool false)
  ∧ ask {[ "A"; "B" ]} g = Ret (PyBool true).
Proof. repeat apply conj; vm_compute; reflexivity. Qed.

(** C4. The code breaks the claim on OR(AND(A,B,C),D).  The branch that
    distributes OR over AND reads the first two operands of the conjunction
    only: the result is AND(OR(A,D),OR(B,D)), the conjunct C is lost, and
    under the facts A and B [World.ask] gives False for the formula and
    True for the result.  The other paths keep all operands: the AND branch
    of the converter returns AND(A,B,C) as it is, and [World.ask] and
    [_extract_clauses] read all three.  The OR branch reads two operands
    only as well: OR(A,B,C) becomes OR(A,B).  So the conversion does not
    preserve the truth value of every formula. *)
Theorem convert_to_cnf_drops_third_conjunct :
  let conjunction := Node "AND" [Atom "A"; Atom "B"; Atom "C"] in
  let f := Or conjunction (Atom "D") in
  let g := And (Or (Atom "A") (Atom "D")) (Or (Atom "B") (Atom "D")) in
  convert_to_cnf 4 f = Ret g
  ∧ ask {[ "A"; "B" ]} f = Ret (PyBool false)
  ∧ ask {[ "A"; "B" ]} g = Ret (PyBool true)
  ∧ convert_to_cnf 2 conjunction = Ret conjunction
  ∧ ask {[ "A"; "B" ]} conjunction = Ret (PyBool false)
  ∧ ask {[ "A"; "B"; "C" ]} conjunction = Ret (PyBool true)
  ∧ extract_clauses 2 conjunction = Ret [[Atom "A"]; [Atom "B"]; [Atom "C"]]
  ∧ convert_to_cnf 2 (Node "OR" [Atom "A"; Atom "B"; Atom "C"])
    = Ret (Or (Atom "A") (Atom "B"))
  ∧ ¬ ∀ (f : formula) (fuel : nat) (g : formula) (facts : gset string),
        convert_to_cnf fuel f = Ret g → ask facts g = ask facts f.
Proof.
  cbv zeta. repeat apply conj; try (vm_compute; reflexivity).
  intros H. destruct ternary_and_example as (Hc & Hf & Hg).
  specialize (H _ _ _ {[ "A"; "B" ]} Hc). rewrite Hf, Hg in H. discriminate H.
Qed.

End CnfFacts.

(** * Further properties of the first-order engine *)

Module PrintedFacts.
Import Fol FolFacts Printed.

Lemma app_cons c s t : String c s +:+ t = String c (s +:+ t).
Proof. reflexivity. Qed.

Lemma app_nil_l t : EmptyString +:+ t = t.
Proof. reflexivity. Qed.

Lemma app_nil_r s : s +:+ EmptyString = s.
Proof. induction s as [|c s IH]; [done|]. by rewrite app_cons, IH. Qed.

Lemma app_assoc s t u : (s +:+ t) +:+ u = s +:+ t +:+ u.
Proof. induction s as [|c s IH]; [done|]. by rewrite !app_cons, IH. Qed.

Lemma all_chars_app p s t :
  all_chars p (s +:+ t) = all_chars p s && all_chars p t.
Proof.
  induction s as [|c s IH]; [done|]. rewrite app_cons. simpl.
  by rewrite IH, andb_assoc.
Qed.

Lemma all_chars_impl (p q : ascii → bool) s :
  (∀ c, p c = true → q c = true) → all_chars p s = true → all_chars q s = true.
Proof.
  intros Hpq. induction s as [|c s IH]; [done|]. simpl.
  intros [Hc Hs]%andb_true_iff. by rewrite (Hpq _ Hc), IH.
Qed.

(** *** The pieces of the pattern *)

Lemma span_all p s : all_chars p s = true → Py.span p s = (s, EmptyString).
Proof.
  induction s as [|c s IH]; [done|]. simpl.
  intros [Hc Hs]%andb_true_iff. by rewrite Hc, IH.
Qed.

Lemma span_app p s c t :
  all_chars p s = true → p c = false →
  Py.span p (s +:+ String c t) = (s, String c t).
Proof.
  intros Hs Hc. induction s as [|d s IH].
  - rewrite app_nil_l. simpl. by rewrite Hc.
  - simpl in Hs. apply andb_true_iff in Hs as [Hd Hs].
    rewrite app_cons. simpl. by rewrite Hd, IH.
Qed.

Lemma before_last_app c s : Py.before_last c (s +:+ String c EmptyString) = Some s.
Proof.
  induction s as [|d s IH].
  - rewrite app_nil_l. simpl. by rewrite Ascii.eqb_refl.
  - rewrite app_cons. simpl. by rewrite IH.
Qed.

Lemma split_commas_argument a :
  ∀ skip cur rest,
    all_chars (λ c, negb (Ascii.eqb c ",")) a = true →
    (skip = true → no_leading_space a = true) →
    Py.split_commas skip cur (a +:+ rest)
    = Py.split_commas (match a with EmptyString => skip | _ => false end)
        (cur +:+ a) rest.
Proof.
  induction a as [|c a IH]; intros skip cur rest Ha Hsp.
  - by rewrite app_nil_l, app_nil_r.
  - simpl in Ha. apply andb_true_iff in Ha as [Hc Ha].
    rewrite app_cons. simpl.
    assert (skip && Py.isspace_char c = false) as ->.
    { destruct skip; [|done]. simpl in Hsp.
      specialize (Hsp eq_refl). by apply negb_true_iff in Hsp. }
    apply negb_true_iff in Hc. rewrite Hc.
    rewrite (IH false) by done.
    replace ((cur +:+ String c EmptyString) +:+ a) with (cur +:+ String c a)
      by (by rewrite app_assoc).
    by destruct a.
Qed.

Lemma split_commas_separator skip cur rest :
  Py.split_commas skip cur (", " +:+ rest)
  = cur :: Py.split_commas true EmptyString rest.
Proof. by destruct skip. Qed.

Lemma argument_no_comma a :
  argument a = true → all_chars (λ c, negb (Ascii.eqb c ",")) a = true.
Proof. apply all_chars_impl. by intros c [? _]%andb_true_iff. Qed.

Lemma argument_no_newline a :
  argument a = true →
  all_chars (λ c, negb (Ascii.eqb c Py.newline)) a = true.
Proof. apply all_chars_impl. by intros c [_ ?]%andb_true_iff. Qed.

Lemma join_cons sep a b args :
  Py.join sep (a :: b :: args) = a +:+ sep +:+ Py.join sep (b :: args).
Proof. reflexivity. Qed.

Lemma split_commas_join args :
  ∀ a skip cur,
    argument a = true → (skip = true → no_leading_space a = true) →
    Forall (λ b, argument b = true ∧ no_leading_space b = true) args →
    Py.split_commas skip cur (Py.join ", " (a :: args)) = (cur +:+ a) :: args.
Proof.
  induction args as [|b args IH]; intros a skip cur Ha Hsp Hargs.
  - simpl. rewrite <-(app_nil_r a) at 1.
    rewrite split_commas_argument by auto using argument_no_comma.
    by destruct a.
  - apply Forall_cons in Hargs as [[Hb Hbs] Hargs].
    rewrite join_cons, split_commas_argument by auto using argument_no_comma.
    rewrite split_commas_separator, IH by done. done.
Qed.

Lemma no_newline_join args :
  Forall (λ b, argument b = true) args →
  all_chars (λ c, negb (Ascii.eqb c Py.newline)) (Py.join ", " args) = true.
Proof.
  induction args as [|a [|b args] IH]; intros Hargs; [done| |].
  - simpl. apply argument_no_newline. by apply Forall_inv in Hargs.
  - apply Forall_cons in Hargs as [Ha Hargs]. rewrite join_cons.
    rewrite !all_chars_app, (argument_no_newline _ Ha), IH by done. done.
Qed.

Lemma startswith_symbol name rest :
  symbol name = true → Py.startswith neg (name +:+ rest) = false.
Proof.
  destruct name as [|c name]; [done|]. simpl.
  intros [Hc _]%andb_true_iff. rewrite ?app_cons. simpl.
  apply Ascii.eqb_neq. intros ->. done.
Qed.

Lemma print_body name args :
  print name args = name +:+ String "(" (Py.join ", " args +:+ ")").
Proof. reflexivity. Qed.

(** The pattern on the text after the optional marker. *)
Lemma parse_body name a args :
  symbol name = true →
  argument a = true →
  Forall (λ b, argument b = true ∧ no_leading_space b = true) args →
  Py.span Py.isword_char (print name (a :: args))
    = (name, String "(" (Py.join ", " (a :: args) +:+ ")"))
  ∧ Py.span (λ c, negb (Ascii.eqb c Py.newline)) (Py.join ", " (a :: args) +:+ ")")
    = (Py.join ", " (a :: args) +:+ ")", EmptyString)
  ∧ Py.before_last ")" (Py.join ", " (a :: args) +:+ ")")
    = Some (Py.join ", " (a :: args))
  ∧ Py.re_split_commas (Py.join ", " (a :: args)) = a :: args.
Proof.
  intros Hname Ha Hargs.
  assert (all_chars Py.isword_char name = true) as Hw by (by destruct name).
  split; [by rewrite print_body, span_app|].
  split.
  { apply span_all. rewrite all_chars_app, no_newline_join; [done|].
    constructor; [done|]. eapply Forall_impl; [exact Hargs|]. by intros b [? _]. }
  split; [apply before_last_app|].
  unfold Py.re_split_commas. by rewrite split_commas_join.
Qed.

Lemma parse_sentence_print_positive name a args :
  symbol name = true →
  argument a = true →
  Forall (λ b, argument b = true ∧ no_leading_space b = true) args →
  parse_sentence (print name (a :: args)) = (Some name, a :: args).
Proof.
  intros Hname Ha Hargs.
  destruct (parse_body name a args) as (H1 & H2 & H3 & H4); [done..|].
  unfold parse_sentence. rewrite print_body in *.
  rewrite (startswith_symbol name) by done. rewrite H1.
  destruct name as [|c name]; [done|]. by rewrite H2, H3, H4.
Qed.

Lemma parse_sentence_print_negative name a args :
  symbol name = true →
  argument a = true →
  Forall (λ b, argument b = true ∧ no_leading_space b = true) args →
  parse_sentence (print (Neg name) (a :: args)) = (Some (Neg name), a :: args).
Proof.
  intros Hname Ha Hargs.
  destruct (parse_body name a args) as (H1 & H2 & H3 & H4); [done..|].
  unfold parse_sentence.
  change (print (Neg name) (a :: args)) with (String neg (print name (a :: args))).
  cbn [Py.startswith Py.tail]. rewrite Ascii.eqb_refl, H1.
  change (String neg EmptyString +:+ name) with (Neg name).
  destruct name as [|c name]; [done|]. by rewrite H2, H3, H4.
Qed.

(** *** What a successful parse returns *)

Lemma span_fst_all p s : all_chars p (Py.span p s).1 = true.
Proof.
  induction s as [|c s IH]; [done|]. simpl.
  destruct (p c) eqn:Hc; [|done]. destruct (Py.span p s) as [a b]. simpl in *.
  by rewrite Hc, IH.
Qed.

Lemma before_last_all p c s t :
  Py.before_last c s = Some t → all_chars p s = true → all_chars p t = true.
Proof.
  revert t. induction s as [|d s IH]; intros t; [done|]. simpl.
  intros H [Hd Hs]%andb_true_iff.
  destruct (Py.before_last c s) as [u|].
  - injection H as <-. simpl. by rewrite Hd, (IH u).
  - destruct (Ascii.eqb d c); [by injection H as <-|done].
Qed.

Lemma all_chars_snoc p s c :
  all_chars p (s +:+ String c EmptyString) = all_chars p s && p c.
Proof. rewrite all_chars_app. simpl. by rewrite andb_true_r. Qed.

Lemma split_commas_arguments s :
  ∀ skip cur,
    all_chars (λ c, negb (Ascii.eqb c Py.newline)) s = true →
    argument cur = true →
    Forall (λ b, argument b = true) (Py.split_commas skip cur s).
Proof.
  induction s as [|c s IH]; intros skip cur Hs Hcur; simpl.
  - by constructor.
  - simpl in Hs. apply andb_true_iff in Hs as [Hc Hs].
    destruct (skip && Py.isspace_char c); [by apply IH|].
    destruct (Ascii.eqb c ",") eqn:Hcomma.
    + constructor; [done|]. by apply IH.
    + apply IH; [done|]. unfold argument. rewrite all_chars_snoc.
      fold (argument cur). by rewrite Hcur, Hcomma, Hc.
Qed.

Lemma split_commas_started s :
  ∀ skip cur, started skip cur →
    Forall (λ b, no_leading_space b = true) (Py.split_commas skip cur s).
Proof.
  induction s as [|c s IH]; intros skip cur Hst; simpl.
  - constructor; [|constructor]. destruct cur; simpl in *; [done|].
    by rewrite Hst.
  - destruct (skip && Py.isspace_char c) eqn:Hsk.
    { apply IH. destruct cur; [done|]. done. }
    destruct (Ascii.eqb c ",").
    + constructor; [|by apply IH].
      destruct cur; simpl in *; [done|]. by rewrite Hst.
    + apply IH. destruct cur as [|d cur]; simpl in *; [|done].
      subst skip. done.
Qed.

Lemma split_commas_tail s :
  ∀ skip cur,
    ∃ a rest, Py.split_commas skip cur s = a :: rest
              ∧ Forall (λ b, no_leading_space b = true) rest.
Proof.
  induction s as [|c s IH]; intros skip cur; simpl.
  - by exists cur, [].
  - destruct (skip && Py.isspace_char c); [apply IH|].
    destruct (Ascii.eqb c ","); [|apply IH].
    exists cur, (Py.split_commas true EmptyString s). split; [done|].
    by apply split_commas_started.
Qed.

Lemma parse_sentence_shape sentence predicate args :
  parse_sentence sentence = (Some predicate, args) →
  ∃ name a rest,
    symbol name = true
    ∧ (predicate = name ∨ predicate = Neg name)
    ∧ args = a :: rest
    ∧ argument a = true
    ∧ Forall (λ b, argument b = true ∧ no_leading_space b = true) rest.
Proof.
  unfold parse_sentence.
  set (mb := if Py.startswith neg sentence then _ else _).
  assert (mb.1 = EmptyString ∨ mb.1 = String neg EmptyString) as Hm.
  { unfold mb. destruct (Py.startswith neg sentence); auto. }
  destruct mb as [marker body]. simpl in Hm.
  pose proof (span_fst_all Py.isword_char body) as Hname.
  destruct (Py.span Py.isword_char body) as [name rest]. simpl in Hname.
  destruct name as [|c name]; [done|].
  destruct rest as [|d inner]; [done|].
  destruct (Ascii.eqb d "(") eqn:Hd.
  2:{ destruct d as [[] [] [] [] [] [] [] []]; try done. }
  apply Ascii.eqb_eq in Hd as ->.
  pose proof (span_fst_all (λ c, negb (Ascii.eqb c Py.newline)) inner) as Hline.
  destruct (Py.span _ inner) as [line ?]. simpl in Hline.
  destruct (Py.before_last ")" line) as [group2|] eqn:Hg; [|done].
  intros [= <- <-].
  pose proof (before_last_all _ _ _ _ Hg Hline) as Hg2.
  destruct (split_commas_tail group2 false EmptyString) as (a & tl & Hsplit & Htl).
  pose proof (split_commas_arguments group2 false EmptyString Hg2 eq_refl) as Hargs.
  unfold Py.re_split_commas. rewrite Hsplit in *.
  apply Forall_cons in Hargs as [Ha Hargs].
  exists (String c name), a, tl. split; [done|]. split.
  { destruct Hm as [-> | ->]; [left | right]; reflexivity. }
  split; [done|]. split; [done|].
  apply Forall_and. done.
Qed.

Lemma apply_substitution_to_term_argument (s : subst) a :
  binds_arguments s → argument a = true →
  argument (apply_substitution_to_term a s) = true.
Proof.
  intros Hs Ha. unfold apply_substitution_to_term.
  destruct (is_variable a); [|done].
  destruct (s !! a) as [v|] eqn:Hv; [|done]. simpl. by apply (Hs a v).
Qed.

Lemma apply_substitution_to_term_no_leading_space (s : subst) a :
  binds_arguments s → no_leading_space a = true →
  no_leading_space (apply_substitution_to_term a s) = true.
Proof.
  intros Hs Ha. unfold apply_substitution_to_term.
  destruct (is_variable a); [|done].
  destruct (s !! a) as [v|] eqn:Hv; [|done]. simpl. by apply (Hs a v).
Qed.

(** X1. Negating a query twice gives the query back, except for a query
    that starts with two negation markers: [negate_query] strips one marker
    from it and the second call strips another instead of putting the first
    one back. *)
Theorem negate_query_twice q :
  negate_query (negate_query q) = q ↔ ¬ ∃ r, q = Neg (Neg r).
Proof.
  assert (∀ a b r, r ≠ String a (String b r)) as Hlen.
  { intros a b r H. apply (f_equal String.length) in H. simpl in H. lia. }
  unfold negate_query. destruct q as [|c q]; simpl.
  { split; [|done]. by intros _ [r [=]]. }
  destruct (Ascii.eqb c neg) eqn:Hc; simpl.
  - apply Ascii.eqb_eq in Hc as ->.
    destruct q as [|d q]; simpl.
    { split; [|done]. by intros _ [r [=]]. }
    destruct (Ascii.eqb d neg) eqn:Hd; simpl.
    + apply Ascii.eqb_eq in Hd as ->. split.
      * intros H. by apply Hlen in H.
      * intros H. destruct H. by exists q.
    + split; [|done]. intros _ [r [= -> _]]. by rewrite Ascii.eqb_refl in Hd.
  - split; [|done].
    intros _ [r [= -> _]]. by rewrite Ascii.eqb_refl in Hc.
Qed.

End PrintedFacts.

Module ResolveFacts.
Import Fol FolFacts Printed PrintedFacts.

(** *** Unifying a sentence with itself *)

Lemma unify_terms_same n term (s : subst) :
  unify_terms (S n) term term s = Ret (true, s).
Proof. simpl. by rewrite String.eqb_refl. Qed.

Lemma unify_each_same n (args : list string) (s : subst) :
  unify_each (unify_terms (S n)) (zip args args) s = Ret (true, s).
Proof.
  induction args as [|a args IH]; [done|].
  cbn [zip zip_with unify_each]. rewrite unify_terms_same. simpl. exact IH.
Qed.

Lemma unify_branch_same n sentence :
  unify_branch (S n) sentence sentence = Ret (Some ∅).
Proof.
  unfold unify_branch. destruct (parse_sentence sentence) as [p args].
  rewrite bool_decide_eq_true_2 by done. rewrite Nat.eqb_refl. cbn [negb].
  by rewrite unify_each_same.
Qed.

(** *** Clauses without a complementary pair *)

Lemma foldM_unchanged {A S} (f : A → S → result S) (l : list A) (s : S) :
  (∀ x, x ∈ l → f x s = Ret s) → foldM f l s = Ret s.
Proof.
  induction l as [|x l IH]; intros H; [done|]. simpl.
  rewrite H by left. simpl. apply IH. intros y Hy. apply H. by right.
Qed.

Lemma resolve_no_pair (o : set_order) fuel c1 c2 :
  (∀ l1 l2, l1 ∈ c1 → l2 ∈ c2 → complementary l1 l2 = None) →
  resolve o fuel c1 c2 = Ret ∅.
Proof.
  intros H. unfold resolve. apply foldM_unchanged.
  intros [l1 l2] (x & (y & [= <- <-]%list_elem_of_singleton & Hy%elem_of_iter)%list_elem_of_bind
                    & Hx%elem_of_iter)%list_elem_of_bind.
  unfold resolve_step, resolvent. by rewrite (H _ _ Hx Hy).
Qed.

Lemma complementary_same_polarity l1 l2 :
  Py.startswith neg l1 = Py.startswith neg l2 → complementary l1 l2 = None.
Proof.
  unfold complementary. intros ->. by destruct (Py.startswith neg l2).
Qed.

(** *** Two unit clauses *)

Lemma iter_empty {A} `{Countable A} (o : set_order) : iter o (∅ : gset A) = [].
Proof. apply Permutation_nil_r. by rewrite iter_perm, elements_empty. Qed.

Lemma resolve_units (o : set_order) fuel l1 l2 s1 s2 d :
  complementary l1 l2 = Some (s1, s2) →
  unify fuel s1 s2 = Ret d →
  resolve o fuel {[ l1 ]} {[ l2 ]} = Ret {[ ∅ ]}.
Proof.
  intros Hc Hu. unfold resolve. rewrite !iter_singleton. simpl.
  unfold resolve_step, resolvent. rewrite Hc, Hu. simpl.
  replace (({[l1]} ∪ {[l2]}) ∖ {[l1; l2]} : clause) with (∅ : clause) by set_solver.
  rewrite iter_empty. simpl. f_equal; set_solver.
Qed.

(** *** A fact and its negation *)

Lemma unify_same n sentence : unify (S n) sentence sentence = Ret ∅.
Proof. unfold unify. by rewrite unify_branch_same. Qed.

Lemma complementary_negated q :
  ¬ (∃ t, q = Neg (Neg t)) →
  negate_query q ≠ q ∧ ∃ s, complementary (negate_query q) q = Some (s, s).
Proof.
  intros Hq. unfold negate_query.
  destruct (Py.startswith neg q) eqn:Hs.
  - destruct q as [|c q]; [done|]. simpl in Hs. apply Ascii.eqb_eq in Hs as ->.
    simpl. split.
    { intros H. apply (f_equal String.length) in H. simpl in H. lia. }
    assert (Py.startswith neg q = false) as Hq'.
    { destruct q as [|d q]; [done|]. simpl. apply Ascii.eqb_neq. intros ->.
      apply Hq. by exists q. }
    exists q. unfold complementary. rewrite Hq'. simpl.
    by rewrite String.eqb_refl.
  - split.
    { intros H. apply (f_equal String.length) in H. simpl in H. lia. }
    exists q. unfold complementary. rewrite Hs. simpl.
    by rewrite String.eqb_refl.
Qed.

(** X10. A knowledge base that consists of the one fact [q] entails [q]:
    the loop returns True in its first round, in every order of iteration,
    unless [q] starts with two negation markers. *)
Theorem inference_of_fact (o : set_order) r n q :
  ¬ (∃ t, q = Neg (Neg t)) →
  inference_by_resolution o (S r) (S n) [[q]] q = Ret true.
Proof.
  intros Hq. destruct (complementary_negated q Hq) as (Hne & s & Hc).
  unfold inference_by_resolution, prepare_kb_with_negated_query.
  set (nq := negate_query q) in *.
  cbn [app fmap list_fmap List.last list_to_set foldr].
  set (ci := ({[nq]} ∪ ∅ : clause)). set (cj := ({[q]} ∪ ∅ : clause)).
  assert (ci = {[nq]}) as Hci by set_solver.
  assert (cj = {[q]}) as Hcj by set_solver.
  assert (ci ≠ cj) as Hij.
  { rewrite Hci, Hcj. intros H. apply Hne.
    assert (nq ∈ ({[q]} : clause)) as Hin by (rewrite <-H; set_solver).
    by apply elem_of_singleton in Hin. }
  assert (∃ res, resolve o (S n) ci cj = Ret res ∧ ∅ ∈ res) as Hres.
  { exists {[ ∅ ]}. split; [|set_solver]. rewrite Hci, Hcj.
    eapply resolve_units; [exact Hc | apply unify_same]. }
  apply saturate_found.
  unfold round.
  apply (foldM_exit_found _ _ _ ci cj).
  - exact Hij.
  - exact Hres.
  - apply list_elem_of_bind. exists ci. split.
    + apply list_elem_of_bind. exists cj. split; [left|].
      apply elem_of_iter. apply elem_of_union_l, elem_of_singleton; reflexivity.
    + apply elem_of_iter. apply elem_of_singleton; reflexivity.
  - intros (x & (y & [= <- <-]%list_elem_of_singleton & _)%list_elem_of_bind
              & Hx%elem_of_iter)%list_elem_of_bind.
    apply elem_of_singleton in Hx. done.
  - intros a b (x & (y & [= <- <-]%list_elem_of_singleton & Hy%elem_of_iter)%list_elem_of_bind
              & Hx%elem_of_iter)%list_elem_of_bind Hab.
    apply elem_of_singleton in Hx as ->.
    destruct Hres as (res & Hres & _). exists res.
    assert (b = cj) as ->.
    { apply elem_of_union in Hy as [Hy%elem_of_singleton|Hy]; [done|].
      apply elem_of_union in Hy as [Hy%elem_of_singleton|Hy]; [done|].
      by apply not_elem_of_empty in Hy. }
    done.
  - simpl. apply not_elem_of_empty.
Qed.

Lemma inference_of_fact_witness :
  inference_by_resolution sorted 1 1 [["King(John)"]] "King(John)" = Ret true.
Proof. apply inference_of_fact. intros [t H]. discriminate H. Defined.
End ResolveFacts.

Module SubstitutionFacts.
Import Fol FolFacts Printed PrintedFacts ResolveFacts.

(** *** Parsing what [apply_substitution_to_literal] prints *)

(** X4. When a literal parses and the values of the substitution hold no
    comma, no line break and no leading white space,
    [apply_substitution_to_literal] returns (its sum raises no TypeError) and
    what it prints parses back to the same predicate and to the arguments
    with the substitution applied to each. *)
Theorem parse_after_substitution literal predicate args (s : subst) :
  parse_sentence literal = (Some predicate, args) →
  binds_arguments s →
  ∃ out, apply_substitution_to_literal literal s = Ret out
         ∧ parse_sentence out
           = (Some predicate, (λ a, apply_substitution_to_term a s) <$> args).
Proof.
  intros Hp Hs.
  destruct (parse_sentence_shape _ _ _ Hp) as (name & a & rest & Hn & Hpred & -> & Ha & Hrest).
  unfold apply_substitution_to_literal. rewrite Hp. eexists. split; [reflexivity|].
  fold (print predicate ((λ a, apply_substitution_to_term a s) <$> a :: rest)).
  rewrite fmap_cons.
  assert (Forall (λ b, argument b = true ∧ no_leading_space b = true)
            ((λ a, apply_substitution_to_term a s) <$> rest)) as Hrest'.
  { apply Forall_fmap. eapply Forall_impl; [exact Hrest|]. intros b [Hb1 Hb2]. simpl.
    split; [by apply apply_substitution_to_term_argument
           | by apply apply_substitution_to_term_no_leading_space]. }
  destruct Hpred as [-> | ->].
  - apply parse_sentence_print_positive;
      auto using apply_substitution_to_term_argument.
  - apply parse_sentence_print_negative;
      auto using apply_substitution_to_term_argument.
Qed.

Lemma parse_after_substitution_witness :
  ∃ out,
    apply_substitution_to_literal "King(x, John)" {[ "x" := "Richard" ]} = Ret out
    ∧ parse_sentence out
      = (Some "King",
         (λ a, apply_substitution_to_term a {[ "x" := "Richard" ]}) <$> ["x"; "John"]).
Proof.
  apply (parse_after_substitution "King(x, John)" "King" ["x"; "John"]).
  - vm_compute. reflexivity.
  - intros k v H. apply lookup_singleton_Some in H as [_ <-].
    split; reflexivity.
Defined.

(** *** Variables, symbols and compound terms as texts *)

Lemma alpha_char_plain c :
  Py.isalpha_char c = true →
  Py.isspace_char c = false
  ∧ negb (Ascii.eqb c ",") && negb (Ascii.eqb c Py.newline) = true
  ∧ Py.isword_char c = true.
Proof.
  destruct c as [[] [] [] [] [] [] [] []]; vm_compute; intros H;
    try discriminate H; repeat split.
Qed.

Lemma word_char_plain c :
  Py.isword_char c = true →
  Py.isspace_char c = false
  ∧ negb (Ascii.eqb c ",") && negb (Ascii.eqb c Py.newline) = true.
Proof.
  destruct c as [[] [] [] [] [] [] [] []]; vm_compute; intros H;
    try discriminate H; repeat split.
Qed.

Lemma all_alpha_all_chars s : Py.all_alpha s = all_chars Py.isalpha_char s.
Proof. induction s as [|c s IH]; [done|]. simpl. by rewrite IH. Qed.

Lemma variable_argument x :
  is_variable x = true → argument x = true ∧ no_leading_space x = true.
Proof.
  unfold is_variable. destruct x as [|c x]; [done|].
  intros [Hl Ha]%andb_true_iff. unfold Py.isalpha in Ha.
  rewrite all_alpha_all_chars in Ha. split.
  - revert Ha. apply all_chars_impl. intros d Hd. by apply alpha_char_plain.
  - simpl in Ha. apply andb_true_iff in Ha as [Hc _].
    simpl. apply alpha_char_plain in Hc as [-> _]. done.
Qed.

Lemma symbol_argument f :
  symbol f = true → argument f = true ∧ no_leading_space f = true.
Proof.
  destruct f as [|c f]; [done|]. unfold symbol. intros Hf. split.
  - revert Hf. apply all_chars_impl. intros d Hd. by apply word_char_plain.
  - simpl in Hf. apply andb_true_iff in Hf as [Hc _].
    simpl. apply word_char_plain in Hc as [-> _]. done.
Qed.

Lemma print_argument f x :
  symbol f = true → argument x = true →
  argument (print f [x]) = true ∧ no_leading_space (print f [x]) = true.
Proof.
  intros Hf Hx. destruct (symbol_argument f Hf) as [Hfa Hfs]. split.
  - unfold argument, print in *. simpl Py.join.
    rewrite !all_chars_app, Hfa, Hx. done.
  - destruct f as [|c f]; [done|]. exact Hfs.
Qed.

Lemma all_alpha_paren s t : Py.all_alpha (s +:+ String "(" t) = false.
Proof.
  induction s as [|c s IH]; [done|]. rewrite app_cons. simpl.
  by rewrite IH, andb_false_r.
Qed.

Lemma print_not_variable f args : is_variable (print f args) = false.
Proof.
  unfold print. change ("(" +:+ ?t) with (String "(" t).
  unfold is_variable, Py.isalpha.
  destruct (f +:+ String "(" _) as [|c r] eqn:E; [done|].
  rewrite <-E, all_alpha_paren. apply andb_false_r.
Qed.

Lemma print_inj f x y :
  symbol f = true → argument x = true → argument y = true →
  print f [x] = print f [y] → x = y.
Proof.
  intros Hf Hx Hy H.
  pose proof (parse_sentence_print_positive f x [] Hf Hx (Forall_nil_2 _)) as Px.
  pose proof (parse_sentence_print_positive f y [] Hf Hy (Forall_nil_2 _)) as Py.
  rewrite H in Px. rewrite Px in Py. by injection Py.
Qed.

Lemma apply_bound x v (s : subst) :
  is_variable x = true → s !! x = Some v → apply_substitution_to_term x s = v.
Proof. unfold apply_substitution_to_term. by intros -> ->. Qed.

Lemma apply_unbound x (s : subst) :
  s !! x = None → apply_substitution_to_term x s = x.
Proof.
  unfold apply_substitution_to_term. intros ->. by destruct (is_variable x).
Qed.

(** *** Bindings that refer to each other *)

Lemma unify_terms_unfold n term1 term2 (s : subst) :
  unify_terms (S n) term1 term2 s
  = let t1 := apply_substitution_to_term term1 s in
    let t2 := apply_substitution_to_term term2 s in
    if String.eqb t1 t2 then Ret (true, s)
    else if is_variable t1 then Ret (true, <[t1 := t2]> s)
    else if is_variable t2 then Ret (true, <[t2 := t1]> s)
    else
      let '(predicate1, args1) := parse_sentence t1 in
      let '(predicate2, args2) := parse_sentence t2 in
      match predicate1, predicate2 with
      | Some p1, Some p2 =>
          if String.eqb p1 p2 && Nat.eqb (List.length args1) (List.length args2)
          then unify_each (unify_terms n) (zip args1 args2) s
          else Ret (false, s)
      | _, _ => Ret (false, s)
      end.
Proof. reflexivity. Qed.

Lemma unify_terms_cycle f x y (s : subst) :
  symbol f = true → is_variable x = true → is_variable y = true → x ≠ y →
  s !! x = Some (print f [y]) → s !! y = Some (print f [x]) →
  ∀ n, unify_terms n x y s = OutOfFuel ∧ unify_terms n y x s = OutOfFuel.
Proof.
  intros Hf Hx Hy Hxy Hsx Hsy.
  destruct (variable_argument x Hx) as [Hxa _].
  destruct (variable_argument y Hy) as [Hya _].
  assert (print f [y] ≠ print f [x]) as Hne.
  { intros H. apply Hxy. symmetry. by eapply print_inj. }
  induction n as [|n [IHxy IHyx]]; [done|].
  split; rewrite unify_terms_unfold; cbn zeta;
    rewrite (apply_bound x _ s Hx Hsx), (apply_bound y _ s Hy Hsy).
  - rewrite (proj2 (String.eqb_neq _ _) Hne), !print_not_variable.
    rewrite !parse_sentence_print_positive by done.
    rewrite String.eqb_refl. cbn [List.length Nat.eqb andb zip zip_with unify_each].
    by rewrite IHyx.
  - rewrite (proj2 (String.eqb_neq _ _) (not_eq_sym Hne)), !print_not_variable.
    rewrite !parse_sentence_print_positive by done.
    rewrite String.eqb_refl. cbn [List.length Nat.eqb andb zip zip_with unify_each].
    by rewrite IHxy.
Qed.

(** X6. [unify_terms] makes no occurs check and applies a substitution one
    step deep.  Unifying P(x, y, x) with P(f(y), f(x), y) binds x to f(y) and
    y to f(x); the third pair of arguments then sends [unify_terms] from
    f(y) and f(x) to y and x and back, so no recursion depth suffices for
    [unify] to return. *)
Theorem unify_cycle p f x y fuel :
  symbol p = true → symbol f = true →
  is_variable x = true → is_variable y = true → x ≠ y →
  unify fuel (print p [x; y; x]) (print p [print f [y]; print f [x]; y]) = OutOfFuel.
Proof.
  intros Hp Hf Hx Hy Hxy.
  destruct (variable_argument x Hx) as [Hxa Hxs].
  destruct (variable_argument y Hy) as [Hya Hys].
  destruct (print_argument f x Hf Hxa) as [Hfxa Hfxs].
  destruct (print_argument f y Hf Hya) as [Hfya Hfys].
  assert (parse_sentence (print p [x; y; x]) = (Some p, [x; y; x])) as P1.
  { apply parse_sentence_print_positive; [done|done|]. by repeat constructor. }
  assert (parse_sentence (print p [print f [y]; print f [x]; y])
          = (Some p, [print f [y]; print f [x]; y])) as P2.
  { apply parse_sentence_print_positive; [done|done|]. by repeat constructor. }
  unfold unify, unify_branch. rewrite P1, P2.
  rewrite bool_decide_eq_true_2 by done.
  cbn [List.length Nat.eqb negb zip zip_with unify_each].
  destruct fuel as [|n]; [done|].
  assert (x ≠ print f [y]) as Hx1.
  { intros H. pose proof (print_not_variable f [y]) as Hv. congruence. }
  assert (y ≠ print f [x]) as Hy1.
  { intros H. pose proof (print_not_variable f [x]) as Hv. congruence. }
  rewrite unify_terms_unfold. cbn zeta.
  rewrite (apply_unbound x ∅) by apply lookup_empty.
  rewrite (apply_substitution_to_term_other (print f [y])) by apply print_not_variable.
  rewrite (proj2 (String.eqb_neq _ _) Hx1), Hx. cbn [mbind result_bind].
  rewrite unify_terms_unfold. cbn zeta.
  rewrite (apply_unbound y) by (by rewrite lookup_insert_ne, lookup_empty).
  rewrite (apply_substitution_to_term_other (print f [x])) by apply print_not_variable.
  rewrite (proj2 (String.eqb_neq _ _) Hy1), Hy. cbn [mbind result_bind].
  assert (unify_terms (S n) x y (<[y := print f [x]]> (<[x := print f [y]]> ∅))
          = OutOfFuel) as Hc.
  { apply (unify_terms_cycle f x y); try done.
    - by rewrite lookup_insert_ne, lookup_insert_eq.
    - by rewrite lookup_insert_eq. }
  by rewrite Hc.
Qed.

Lemma unify_cycle_witness :
  unify 50 (print "P" ["x"; "y"; "x"]) (print "P" [print "f" ["y"]; print "f" ["x"]; "y"])
  = OutOfFuel.
Proof. apply unify_cycle; try reflexivity. discriminate. Defined.

End SubstitutionFacts.

Module FolLoopFacts.
Import Fol FolFacts Printed PrintedFacts ResolveFacts.

Lemma foldM_exit_invariant {A S} (f : A → S → result (option S)) (I : S → Prop)
    (l : list A) :
  (∀ x s, x ∈ l → I s → ∃ s', f x s = Ret (Some s') ∧ I s') →
  ∀ s, I s → ∃ s', foldM_exit f l s = Ret (Some s') ∧ I s'.
Proof.
  induction l as [|x l IH]; intros Hf s Hs; [by exists s|].
  destruct (Hf x s) as (s1 & H1 & I1); [left|done|].
  destruct (IH (λ y t Hy, Hf y t (list_elem_of_further _ _ _ Hy)) s1 I1)
    as (s2 & H2 & I2).
  exists s2. simpl. rewrite H1. simpl. by rewrite H2.
Qed.

(** X11. When no literal of the knowledge base passes the tests of [resolve]
    against the negated query (opposite polarity and the same text before
    the first parenthesis), the first round adds no clause and the loop
    returns False; this covers the empty knowledge base. *)
Theorem inference_without_complement (o : set_order) r fuel
    (kb : list (list string)) (q : string) :
  (∀ c l, c ∈ kb → l ∈ c → complementary (negate_query q) l = None) →
  inference_by_resolution o (S r) fuel kb q = Ret false.
Proof.
  intros Hkb. unfold inference_by_resolution, prepare_kb_with_negated_query.
  rewrite List.last_last. set (nq := negate_query q) in *.
  set (clauses := list_to_set (list_to_set <$> kb ++ [[nq]]) : gset clause).
  set (c0 := list_to_set [nq] : clause).
  cbn [saturate]. unfold round. rewrite iter_singleton. cbn [mbind list_bind].
  destruct (λ H, foldM_exit_invariant (round_step o fuel clauses) (λ st, st.2 = ∅)
              ((cj ← iter o clauses; [(c0, cj)]) ++ []) H (∅, ∅) eq_refl)
    as ([P N] & -> & HN).
  - intros [ci cj] [P N] Hin HN. simpl in HN. subst N.
    rewrite List.app_nil_r in Hin.
    apply list_elem_of_bind in Hin
      as (y & [= E1 E2]%list_elem_of_singleton & Hy%elem_of_iter).
    subst ci cj. unfold round_step.
    destruct (decide (c0 = y)); [by eexists|].
    destruct (decide (_ ∈ P)); [by eexists|].
    rewrite (resolve_no_pair o fuel c0 y).
    + cbn. rewrite decide_False by apply not_elem_of_empty.
      eexists. split; [done|]. simpl.
      apply set_eq. intros x. rewrite elem_of_union, elem_of_difference.
      split; [|by intros ?%not_elem_of_empty].
      intros [H|[H _]]; by apply not_elem_of_empty in H.
    + intros l1 l2 Hl1 Hl2.
      apply elem_of_list_to_set, list_elem_of_singleton in Hl1 as ->.
      apply elem_of_list_to_set, list_elem_of_fmap in Hy as (c & -> & Hc).
      apply elem_of_list_to_set in Hl2.
      apply elem_of_app in Hc as [Hc|Hc]; [by apply (Hkb c)|].
      apply list_elem_of_singleton in Hc as ->.
      apply list_elem_of_singleton in Hl2 as ->.
      by apply complementary_same_polarity.
  - cbn. simpl in HN. subst N. by rewrite decide_True.
Qed.

Lemma inference_without_complement_witness :
  inference_by_resolution sorted 1 1 [["King(John)"]] "Evil(John)" = Ret false.
Proof.
  apply inference_without_complement. intros c l Hc Hl.
  apply list_elem_of_singleton in Hc as ->.
  apply list_elem_of_singleton in Hl as ->. reflexivity.
Defined.

End FolLoopFacts.

Module ChainFacts.
Import Fol FolFacts Printed PrintedFacts ResolveFacts FolLoopFacts Chain.

(** *** The literals of the chain *)
















(** *** Clauses of the chain as sets *)








(** *** [resolve] on a negated fact and a clause of the chain *)








(** *** One round whose new clause is a single clause *)




(** *** The rounds of the loop on the chain *)





(** *** The loop on the chain *)







End ChainFacts.

(** * Further properties of the propositional engine *)

Module NormalForm.
Import Wumpus WumpusFacts CnfFacts Meaning.

Lemma plain_regular f : plain f = true → regular f = true.
Proof.
  induction f as [s|a IHa|a IHa b IHb|a IHa b IHb|a IHa b IHb|a IHa b IHb];
    simpl; try done; intros [Ha Hb]%andb_true_iff; by rewrite IHa, IHb.
Qed.

Lemma literal_plain f : is_literal f = true → plain f = true.
Proof. destruct f as [|[]| | | |]; done. Qed.

Lemma clause_plain f : is_clause f = true → plain f = true.
Proof.
  induction f as [s|a IHa|a IHa b IHb|a IHa b IHb|a IHa b IHb|a IHa b IHb];
    simpl; try done.
  - by destruct a.
  - intros [Ha Hb]%andb_true_iff. by rewrite IHa, IHb.
Qed.

Lemma cnf_plain f : is_cnf f = true → plain f = true.
Proof.
  induction f as [s|a IHa|a IHa b IHb|a IHa b IHb|a IHa b IHb|a IHa b IHb];
    simpl; try done.
  - by destruct a.
  - intros [Ha Hb]%andb_true_iff. by rewrite IHa, IHb.
  - intros [Ha Hb]%andb_true_iff. by rewrite !clause_plain.
Qed.

Lemma cnf_regular f : is_cnf f = true → regular f = true.
Proof. intros. by apply plain_regular, cnf_plain. Qed.

Lemma cnf_not_and_clause f : is_cnf f = true → is_and f = false → is_clause f = true.
Proof. by destruct f. Qed.

Lemma kept_refl f : (regular f = true → is_cnf f = true) → kept f f.
Proof. intros H. split; [done|]. split; [done|]. exact H. Qed.

Lemma kept_via h f g :
  (∀ facts, holds facts h = holds facts f) →
  atoms h ⊆ atoms f →
  (regular f = true → regular h = true) →
  kept h g → kept f g.
Proof.
  intros H1 H2 H3 (K1 & K2 & K3). split; [|split].
  - intros facts. by rewrite K1, H1.
  - set_solver.
  - auto.
Qed.

Lemma convert_to_cnf_keeps (fuel : nat) :
  ∀ f g', convert_to_cnf fuel (tuple_of f) = Ret g' →
    ∃ g, g' = tuple_of g ∧ kept f g.
Proof.
  induction fuel as [|n IH]; intros f g' H; [done|].
  destruct f as [s|a|a b|a b|a b|a b].
  - injection H as <-. exists (BAtom s). split; [done|]. by apply kept_refl.
  - destruct a as [s|x|x y|x y|x y|x y].
    + injection H as <-. exists (BNot (BAtom s)). split; [done|]. by apply kept_refl.
    + apply (IH x) in H as (g & -> & Hk). exists g. split; [done|].
      apply (kept_via x); [| |exact (plain_regular x)|done]; [|done].
      intros facts. simpl. by rewrite negb_involutive.
    + apply (IH (BOr (BNot x) (BNot y))) in H as (g & -> & Hk).
      exists g. split; [done|].
      apply (kept_via (BOr (BNot x) (BNot y))); [| |done|done]; [|done].
      intros facts. simpl. by rewrite negb_andb.
    + apply (IH (BAnd (BNot x) (BNot y))) in H as (g & -> & Hk).
      exists g. split; [done|].
      apply (kept_via (BAnd (BNot x) (BNot y))); [| |done|done]; [|done].
      intros facts. simpl. by rewrite negb_orb.
    + cbn in H. apply bind_Ret in H as (c & Hc & [= <-]).
      apply (IH (BImplies x y)) in Hc as (g & -> & (K1 & K2 & _)).
      exists (BNot g). split; [done|]. split; [|split]; [|done|done].
      intros facts. simpl. by rewrite K1.
    + cbn in H. apply bind_Ret in H as (c & Hc & [= <-]).
      apply (IH (BIff x y)) in Hc as (g & -> & (K1 & K2 & _)).
      exists (BNot g). split; [done|]. split; [|split]; [|done|done].
      intros facts. simpl. by rewrite K1.
  - cbn in H. apply bind_Ret in H as (cs & H & [= <-]).
    apply bind_Ret in H as (a' & Ha & H).
    apply bind_Ret in H as (bs & H & [= <-]).
    apply bind_Ret in H as (b' & Hb & [= <-]).
    apply (IH a) in Ha as (ga & -> & (A1 & A2 & A3)).
    apply (IH b) in Hb as (gb & -> & (B1 & B2 & B3)).
    exists (BAnd ga gb). split; [done|]. split; [|split].
    + intros facts. simpl. by rewrite A1, B1.
    + simpl. set_solver.
    + simpl. intros [Ha Hb]%andb_true_iff. by rewrite A3, B3.
  - cbn in H. apply bind_Ret in H as (l & Ha & H).
    apply bind_Ret in H as (r & Hb & H).
    apply (IH a) in Ha as (gl & -> & (A1 & A2 & A3)).
    apply (IH b) in Hb as (gr & -> & (B1 & B2 & B3)).
    destruct (is_and gl) eqn:Hl; [|destruct (is_and gr) eqn:Hr].
    + destruct gl as [| |l1 l2| | |]; try discriminate Hl. cbn in H.
      apply (IH (BAnd (BOr l1 gr) (BOr l2 gr))) in H as (g & -> & Hk).
      exists g. split; [done|]. revert Hk. apply kept_via.
      * intros facts. simpl. rewrite <-A1, <-B1. simpl.
        destruct (holds facts l1), (holds facts l2), (holds facts gr); reflexivity.
      * simpl in *. set_solver.
      * simpl. intros [Ha Hb]%andb_true_iff.
        specialize (A3 Ha). specialize (B3 Hb). simpl in A3.
        apply andb_true_iff in A3 as [A3 A4].
        by rewrite !cnf_regular.
    + rewrite (operands_of_not_and gl Hl) in H.
      destruct gr as [| |r1 r2| | |]; try discriminate Hr. cbn in H.
      apply (IH (BAnd (BOr gl r1) (BOr gl r2))) in H as (g & -> & Hk).
      exists g. split; [done|]. revert Hk. apply kept_via.
      * intros facts. simpl. rewrite <-A1, <-B1. simpl.
        destruct (holds facts gl), (holds facts r1), (holds facts r2); reflexivity.
      * simpl in *. set_solver.
      * simpl. intros [Ha Hb]%andb_true_iff.
        specialize (A3 Ha). specialize (B3 Hb). simpl in B3.
        apply andb_true_iff in B3 as [B3 B4].
        by rewrite !cnf_regular.
    + rewrite (operands_of_not_and gl Hl), (operands_of_not_and gr Hr) in H.
      injection H as <-. exists (BOr gl gr). split; [done|]. split; [|split].
      * intros facts. simpl. by rewrite A1, B1.
      * simpl. set_solver.
      * simpl. intros [Ha Hb]%andb_true_iff.
        by rewrite !cnf_not_and_clause by auto.
  - cbn in H. apply bind_Ret in H as (a' & Ha & H).
    apply bind_Ret in H as (b' & Hb & H).
    apply (IH a) in Ha as (ga & -> & (A1 & A2 & A3)).
    apply (IH b) in Hb as (gb & -> & (B1 & B2 & B3)).
    apply (IH (BOr (BNot ga) gb)) in H as (g & -> & Hk).
    exists g. split; [done|]. revert Hk. apply kept_via.
    + intros facts. simpl. by rewrite A1, B1.
    + simpl. set_solver.
    + simpl. intros [Ha Hb]%andb_true_iff.
      by rewrite cnf_plain, cnf_regular by auto.
  - cbn in H. apply bind_Ret in H as (a' & Ha & H).
    apply bind_Ret in H as (b' & Hb & H).
    apply (IH a) in Ha as (ga & -> & (A1 & A2 & A3)).
    apply (IH b) in Hb as (gb & -> & (B1 & B2 & B3)).
    apply (IH (BAnd (BImplies ga gb) (BImplies gb ga))) in H as (g & -> & Hk).
    exists g. split; [done|]. revert Hk. apply kept_via.
    + intros facts. simpl. rewrite A1, B1.
      destruct (holds facts a), (holds facts b); reflexivity.
    + simpl. set_solver.
    + simpl. intros [Ha Hb]%andb_true_iff.
      by rewrite !cnf_regular by auto.
Qed.

Lemma clause_cnf f : is_clause f = true → is_cnf f = true.
Proof. by destruct f. Qed.

Lemma clause_not_and f : is_clause f = true → is_and f = false.
Proof. by destruct f. Qed.

(** X14. On the binary grammar, where NOT has one operand and AND and OR
    have two, [convert_to_cnf] returns a formula that is a conjunction of
    disjunctions of literals unchanged, at every large enough recursion
    depth. *)
Theorem convert_to_cnf_fixes_cnf g :
  is_cnf g = true → converts (tuple_of g) (tuple_of g).
Proof.
  induction g as [s|a IHa|a IHa b IHb|a IHa b IHb|a IHa b IHb|a IHa b IHb];
    simpl; intros H.
  - apply converts_atom.
  - destruct a; try discriminate H. apply converts_not_atom.
  - apply andb_true_iff in H as [Ha Hb]. apply converts_and; auto.
  - apply andb_true_iff in H as [Ha Hb].
    apply converts_or.
    + apply IHa, clause_cnf, Ha.
    + apply operands_of_not_and, clause_not_and, Ha.
    + apply IHb, clause_cnf, Hb.
    + apply operands_of_not_and, clause_not_and, Hb.
  - discriminate H.
  - discriminate H.
Qed.

Lemma convert_to_cnf_fixes_cnf_witness :
  converts
    (tuple_of (BAnd (BOr (BAtom "A") (BNot (BAtom "B"))) (BAtom "C")))
    (tuple_of (BAnd (BOr (BAtom "A") (BNot (BAtom "B"))) (BAtom "C"))).
Proof. apply convert_to_cnf_fixes_cnf. reflexivity. Defined.

Lemma convert_to_cnf_returns_kept f :
  ∃ g, converts (tuple_of f) (tuple_of g) ∧ kept f g.
Proof.
  destruct (convert_to_cnf_bounded (weight f) f) as (g1 & [n Hn] & _ & _); [lia|].
  destruct (convert_to_cnf_keeps n f _ (Hn n (le_n _))) as (g & Hg & Hk).
  exists g. split; [|done]. rewrite <- Hg. by exists n.
Qed.

(** The shape of what the converter returns on a conjunction, a
    disjunction, an implication and an equivalence, whatever the operands. *)
Lemma convert_and_shape n operands c :
  convert_to_cnf n (Node "AND" operands) = Ret c → ∃ cs, c = Node "AND" cs.
Proof.
  destruct n as [|n]; [done|]. cbn.
  intros (cs & _ & [= <-])%bind_Ret. by exists cs.
Qed.

Lemma convert_or_shape n x y c :
  convert_to_cnf n (Or x y) = Ret c →
  ∃ cs, c = Node "OR" cs ∨ c = Node "AND" cs.
Proof.
  destruct n as [|n]; [done|]. cbn.
  intros (l & _ & H)%bind_Ret. apply bind_Ret in H as (r & _ & H).
  destruct (operands_of "AND" l) as [ls|]; [|destruct (operands_of "AND" r) as [rs|]].
  - apply bind_Ret in H as (l1 & _ & H). apply bind_Ret in H as (l2 & _ & H).
    apply convert_and_shape in H as [cs ->]. exists cs. by right.
  - apply bind_Ret in H as (r1 & _ & H). apply bind_Ret in H as (r2 & _ & H).
    apply convert_and_shape in H as [cs ->]. exists cs. by right.
  - injection H as <-. exists [l; r]. by left.
Qed.

Lemma convert_implies_shape n a b c :
  convert_to_cnf n (Implies a b) = Ret c →
  ∃ cs, c = Node "OR" cs ∨ c = Node "AND" cs.
Proof.
  destruct n as [|n]; [done|]. cbn.
  intros (l & _ & H)%bind_Ret. apply bind_Ret in H as (r & _ & H).
  by apply convert_or_shape in H.
Qed.

Lemma convert_iff_shape n a b c :
  convert_to_cnf n (Iff a b) = Ret c →
  ∃ cs, c = Node "OR" cs ∨ c = Node "AND" cs.
Proof.
  destruct n as [|n]; [done|]. cbn.
  intros (l & _ & H)%bind_Ret. apply bind_Ret in H as (r & _ & H).
  apply convert_and_shape in H as [cs ->]. exists cs. by right.
Qed.

Lemma literal_to_string_junction cs op :
  op = "OR" ∨ op = "AND" →
  literal_to_string (Not (Node op cs)) = Raise ValueError.
Proof. by intros [-> | ->]. Qed.

Lemma mapM_app_Ret {A B} (f : A → result B) (l1 l2 : list A) r :
  mapM f (l1 ++ l2) = Ret r →
  ∃ r1 r2, mapM f l1 = Ret r1 ∧ mapM f l2 = Ret r2 ∧ r = r1 ++ r2.
Proof.
  revert r. induction l1 as [|x l1 IH]; intros r; simpl.
  - intros H. by exists [], r.
  - intros (y & Hy & H)%bind_Ret. apply bind_Ret in H as (ys & Hys & [= <-]).
    destruct (IH _ Hys) as (r1 & r2 & H1 & H2 & ->).
    exists (y :: r1), r2. by rewrite Hy, H1.
Qed.

Lemma negated_junction_not_stringified o rounds fuel kb query :
  (∀ n c, convert_to_cnf n query = Ret c →
          ∃ cs, c = Node "OR" cs ∨ c = Node "AND" cs) →
  (∀ cs, query ≠ Node "NOT" cs) → (∀ cs, query ≠ Node "AND" cs) →
  (∀ cs, query ≠ Node "OR" cs) → (∀ s, query ≠ Atom s) →
  ∀ v, inference_by_resolution o rounds fuel kb query ≠ Ret v.
Proof.
  intros Hshape Hnot Hand Hor Hatom v H. unfold inference_by_resolution in H.
  apply bind_Ret in H as (clauses & _ & H).
  apply bind_Ret in H as (nq & Hnq & H).
  apply bind_Ret in H as (cs & Hcs & H).
  apply bind_Ret in H as (sets & Hsets & _).
  apply mapM_app_Ret in Hsets as (_ & r2 & _ & Hsets & _).
  destruct fuel as [|n]; [done|].
  assert (∃ op ops, nq = Not (Node op ops) ∧ (op = "OR" ∨ op = "AND"))
    as (op & ops & -> & Hop).
  { destruct query as [s|operator operands]; [by destruct (Hatom s)|].
    cbn in Hnq.
    destruct (String.eqb_spec operator "NOT") as [->|_]; [by destruct (Hnot operands)|].
    destruct (String.eqb_spec operator "AND") as [->|_]; [by destruct (Hand operands)|].
    destruct (String.eqb_spec operator "OR") as [->|_]; [by destruct (Hor operands)|].
    apply bind_Ret in Hnq as (c & Hc & [= <-]).
    apply Hshape in Hc as [cs' [-> | ->]]; eauto. }
  cbn in Hcs. injection Hcs as <-.
  cbn [mapM] in Hsets. rewrite literal_to_string_junction in Hsets by done.
  done.
Qed.

End NormalForm.

Module Refutation.
Import Wumpus WumpusFacts CnfFacts Meaning NormalForm.

(** *** Literals as strings *)

Lemma tilde_cons s : "~" +:+ s = String "~" s.
Proof. reflexivity. Qed.

Lemma lit_true_tilde facts s : lit_true facts ("~" +:+ s) = negb (lit_true facts s).
Proof. reflexivity. Qed.

Lemma lit_true_atom facts a :
  Py.startswith "~" a = false → lit_true facts a = bool_decide (a ∈ facts).
Proof. destruct a as [|c r]; [done|]. simpl. by intros ->. Qed.

Lemma tilde_free_atoms f :
  tilde_free f = true ↔ ∀ a, a ∈ atoms f → Py.startswith "~" a = false.
Proof.
  induction f as [s|x IH|x IHx y IHy|x IHx y IHy|x IHx y IHy|x IHx y IHy]; simpl;
    try (rewrite andb_true_iff, IHx, IHy; set_solver).
  - rewrite negb_true_iff. set_solver.
  - done.
Qed.

Lemma tilde_free_mono f g :
  atoms g ⊆ atoms f → tilde_free f = true → tilde_free g = true.
Proof. rewrite !tilde_free_atoms. intros Hs Hf a Ha. apply Hf. set_solver. Qed.

Lemma literal_to_string_true facts (h : binary_formula) s :
  literal_to_string (tuple_of h) = Ret s → tilde_free h = true →
  lit_true facts s = holds facts h.
Proof.
  revert s. induction h as [a|x IH|x _ y _|x _ y _|x _ y _|x _ y _];
    intros s H Hfree; try discriminate H.
  - injection H as <-. apply lit_true_atom. by apply negb_true_iff.
  - cbn in H. apply bind_Ret in H as (s' & Hs' & [= <-]).
    rewrite lit_true_tilde. simpl. f_equal. by apply IH.
Qed.

(** *** From a normal form to clauses *)

Lemma flatten_or_sound fuel :
  ∀ hs cl r,
    flatten_or fuel (tuple_of <$> hs) (tuple_of <$> cl) = Ret r →
    ∃ rl, r = tuple_of <$> rl
          ∧ (Forall (λ f, tilde_free f = true) (hs ++ cl) → Forall (λ f, tilde_free f = true) rl)
          ∧ ∀ facts, some_holds facts (hs ++ cl) → some_holds facts rl.
Proof.
  induction fuel as [|n IH]; intros hs cl r H; [done|].
  destruct hs as [|h rest].
  - injection H as <-. by exists cl.
  - assert (Hother : operands_of "OR" (tuple_of h) = None →
      ∃ rl, r = tuple_of <$> rl
            ∧ (Forall (λ f, tilde_free f = true) ((h :: rest) ++ cl) → Forall (λ f, tilde_free f = true) rl)
            ∧ ∀ facts, some_holds facts ((h :: rest) ++ cl) → some_holds facts rl).
    { intros Hn. cbn [fmap list_fmap flatten_or] in H. rewrite Hn in H.
      change [tuple_of h] with (tuple_of <$> [h]) in H.
      rewrite <-fmap_app in H.
      apply IH in H as (rl & -> & Hfree & Hsome).
      exists rl. split; [done|]. split.
      - intros HF. apply Hfree. revert HF.
        rewrite !Forall_app, Forall_cons, Forall_singleton. tauto.
      - intros facts HE. apply Hsome. revert HE. unfold some_holds.
        rewrite !Exists_app, Exists_cons, Exists_cons, Exists_nil. tauto. }
    destruct h as [a|x|x y|x y|x y|x y]; try (by apply Hother).
    clear Hother. cbn [fmap list_fmap flatten_or tuple_of Or operands_of] in H.
    cbn in H.
    change [tuple_of x; tuple_of y] with (tuple_of <$> [x; y]) in H.
    rewrite <-fmap_app in H.
    apply IH in H as (rl & -> & Hfree & Hsome).
    exists rl. split; [done|]. split.
    + intros HF. apply Hfree. revert HF.
      rewrite !Forall_app, !Forall_cons, Forall_nil.
      intros [[Hxy Hr] Hcl]. repeat split; try done.
      * eapply tilde_free_mono; [|exact Hxy]. simpl. set_solver.
      * eapply tilde_free_mono; [|exact Hxy]. simpl. set_solver.
    + intros facts HE. apply Hsome. revert HE. unfold some_holds.
      rewrite !Exists_app, !Exists_cons, Exists_nil. simpl.
      rewrite orb_true_iff. tauto.
Qed.

Lemma extract_clauses_sound fuel :
  ∀ g cs,
    extract_clauses fuel (tuple_of g) = Ret cs →
    ∃ cl : list (list binary_formula), cs = (λ c : list binary_formula, tuple_of <$> c) <$> cl
          ∧ (tilde_free g = true → Forall (Forall (λ f, tilde_free f = true)) cl)
          ∧ ∀ facts, holds facts g = true → Forall (some_holds facts) cl.
Proof.
  induction fuel as [|n IH]; intros g cs H; [done|].
  assert (Hself : cs = [[tuple_of g]] →
    ∃ cl : list (list binary_formula), cs = (λ c : list binary_formula, tuple_of <$> c) <$> cl
          ∧ (tilde_free g = true → Forall (Forall (λ f, tilde_free f = true)) cl)
          ∧ ∀ facts, holds facts g = true → Forall (some_holds facts) cl).
  { intros ->. exists [[g]]. split; [done|]. split.
    - intros Hg. by repeat constructor.
    - intros facts Hg. repeat constructor. exact Hg. }
  destruct g as [a|x|x y|x y|x y|x y];
    try (apply Hself; cbn in H; by injection H).
  - clear Hself. cbn in H. apply bind_Ret in H as (css & H & [= <-]).
    apply bind_Ret in H as (cx & Hx & H).
    apply bind_Ret in H as (r & H & [= <-]).
    apply bind_Ret in H as (cy & Hy & [= <-]).
    apply IH in Hx as (lx & -> & Fx & Sx).
    apply IH in Hy as (ly & -> & Fy & Sy).
    exists (lx ++ ly). split; [|split].
    + simpl. by rewrite app_nil_r, fmap_app.
    + intros Hg. apply Forall_app. split.
      * apply Fx. eapply tilde_free_mono; [|exact Hg]. simpl. set_solver.
      * apply Fy. eapply tilde_free_mono; [|exact Hg]. simpl. set_solver.
    + intros facts [Hx Hy]%andb_true_iff. apply Forall_app. auto.
  - clear Hself. cbn in H. apply bind_Ret in H as (clause & H & [= <-]).
    change [tuple_of x; tuple_of y] with (tuple_of <$> [x; y]) in H.
    change (@nil formula) with (tuple_of <$> []) in H.
    apply flatten_or_sound in H as (rl & -> & Hfree & Hsome).
    exists [rl]. split; [done|]. split.
    + intros Hg. constructor; [|constructor]. apply Hfree.
      rewrite app_nil_r. constructor; [|constructor; [|constructor]].
      * eapply tilde_free_mono; [|exact Hg]. simpl. set_solver.
      * eapply tilde_free_mono; [|exact Hg]. simpl. set_solver.
    + intros facts Hg. constructor; [|constructor]. apply Hsome.
      unfold some_holds. rewrite app_nil_r, !Exists_cons, Exists_nil.
      simpl in Hg. apply orb_true_iff in Hg. tauto.
Qed.

(** *** From clauses of formulas to clauses of strings *)

Lemma stringified_clause_true facts (c : list binary_formula) ls :
  mapM literal_to_string (tuple_of <$> c) = Ret ls →
  Forall (λ f, tilde_free f = true) c → some_holds facts c →
  clause_true facts (list_to_set ls).
Proof.
  revert ls. induction c as [|h c IH]; intros ls H Hfree Hsome.
  - by apply Exists_nil in Hsome.
  - cbn in H. apply bind_Ret in H as (s & Hs & H).
    apply bind_Ret in H as (ss & Hss & [= <-]).
    apply Forall_cons in Hfree as [Hh Hc].
    apply Exists_cons in Hsome as [Hsome|Hsome].
    + exists s. split; [set_solver|].
      by rewrite (literal_to_string_true facts h s).
    + destruct (IH ss Hss Hc Hsome) as (l & Hl & Ht).
      exists l. split; [set_solver|done].
Qed.

Lemma stringified_clauses_true facts (cl : list (list binary_formula)) sets :
  mapM (λ lits, ls ← mapM literal_to_string lits;
                Ret (list_to_set ls : clause)) ((λ c : list binary_formula, tuple_of <$> c) <$> cl) = Ret sets →
  Forall (Forall (λ f, tilde_free f = true)) cl → Forall (some_holds facts) cl →
  Forall (clause_true facts) sets.
Proof.
  revert sets. induction cl as [|c cl IH]; intros sets H Hfree Hsome.
  - injection H as <-. constructor.
  - cbn in H. apply bind_Ret in H as (s & Hs & H).
    apply bind_Ret in Hs as (ls & Hls & [= <-]).
    apply bind_Ret in H as (ss & Hss & [= <-]).
    apply Forall_cons in Hfree as [Hh Hc].
    apply Forall_cons in Hsome as [Hs Hcl].
    constructor; [|by apply IH].
    by apply (stringified_clause_true facts c).
Qed.

(** *** The resolution rule and the loop *)

Lemma complement_true facts di dj :
  di = "~" +:+ dj ∨ dj = "~" +:+ di →
  lit_true facts di = negb (lit_true facts dj).
Proof.
  intros [-> | ->]; rewrite lit_true_tilde; [done|].
  by rewrite negb_involutive.
Qed.

Lemma resolvent_true (o : set_order) facts ci cj c :
  clause_true facts ci → clause_true facts cj →
  c ∈ resolve_clauses o ci cj → clause_true facts c.
Proof.
  intros (li & Hli & Ti) (lj & Hlj & Tj).
  rewrite elem_of_resolve_clauses. intros (di & dj & Hdi & Hdj & Hc & ->).
  apply (complement_true facts) in Hc.
  destruct (decide (li = di)) as [->|Hne].
  - exists lj. split; [|done].
    apply elem_of_union_r, elem_of_difference. split; [done|].
    rewrite elem_of_singleton. intros ->. rewrite Ti, Tj in Hc. done.
  - exists li. split; [|done].
    apply elem_of_union_l, elem_of_difference. split; [done|].
    by rewrite elem_of_singleton.
Qed.

Lemma not_clause_true_empty facts : ¬ clause_true facts ∅.
Proof. intros (l & Hl & _). by apply not_elem_of_empty in Hl. Qed.

Lemma elem_of_pairs {A} (l : list A) a b : (a, b) ∈ pairs l → a ∈ l ∧ b ∈ l.
Proof.
  induction l as [|x l IH]; [by intros ?%elem_of_nil|].
  rewrite elem_of_pairs_cons. intros [[-> Hb]|H].
  - split; [left|by right].
  - destruct (IH H). split; by right.
Qed.

Lemma resolvents_true (o : set_order) facts clauses c :
  Forall (clause_true facts) clauses →
  c ∈ resolvents_of o (pairs clauses) → clause_true facts c.
Proof.
  rewrite Forall_forall. intros Hall.
  rewrite elem_of_resolvents_of. intros (ci & cj & Hp & Hc).
  apply elem_of_pairs in Hp as [Hi Hj].
  eapply resolvent_true; [| |exact Hc]; auto.
Qed.

Lemma saturate_true_unsatisfiable (o : set_order) facts rounds :
  ∀ clauses, saturate o rounds clauses = Ret true →
    ¬ Forall (clause_true facts) clauses.
Proof.
  induction rounds as [|n IH]; intros clauses H Hall; [done|].
  simpl in H. rewrite scan_spec in H.
  destruct (decide (∅ ∈ resolvents_of o (pairs clauses))) as [He|_].
  - eapply not_clause_true_empty, resolvents_true; eauto.
  - destruct (decide (_ ⊆ _)); [done|].
    apply IH in H. apply H.
    rewrite append_new_filter by apply NoDup_iter.
    apply Forall_app. split; [done|].
    apply Forall_forall. intros c [_ Hc]%list_elem_of_filter.
    apply elem_of_iter in Hc. apply (resolvents_true o facts clauses); [done|].
    revert Hc. rewrite elem_of_union. intros [Hc|Hc]; [|done].
    by apply not_elem_of_empty in Hc.
Qed.

(** *** The whole procedure *)

Lemma kb_clauses_sound fuel facts :
  ∀ (kb : list binary_formula) (accl : list (list binary_formula)) clauses,
    foldM (λ sentence clauses,
             cnf ← convert_to_cnf fuel sentence;
             cs ← extract_clauses fuel cnf;
             Ret (clauses ++ cs)) (tuple_of <$> kb)
          ((λ c : list binary_formula, tuple_of <$> c) <$> accl) = Ret clauses →
    ∃ cl : list (list binary_formula),
      clauses = (λ c : list binary_formula, tuple_of <$> c) <$> cl
      ∧ (Forall (λ f, tilde_free f = true) kb → Forall (Forall (λ f, tilde_free f = true)) accl →
         Forall (Forall (λ f, tilde_free f = true)) cl)
      ∧ (Forall (λ f, holds facts f = true) kb → Forall (some_holds facts) accl →
         Forall (some_holds facts) cl).
Proof.
  induction kb as [|f kb IH]; intros accl clauses H.
  - injection H as <-. by exists accl.
  - cbn [fmap list_fmap foldM] in H.
    apply bind_Ret in H as (acc' & Hstep & H).
    apply bind_Ret in Hstep as (cnf & Hcnf & Hstep).
    apply bind_Ret in Hstep as (cs & Hcs & [= <-]).
    apply convert_to_cnf_keeps in Hcnf as (g & -> & Hholds & Hatoms & _).
    apply extract_clauses_sound in Hcs as (cl & -> & Hfree & Hsome).
    rewrite <-fmap_app in H.
    apply IH in H as (cl' & -> & Hfree' & Hsome').
    exists cl'. split; [done|]. split.
    + intros [Hf Hkb]%Forall_cons Hacc. apply Hfree'; [done|].
      apply Forall_app. split; [done|].
      apply Hfree. by apply (tilde_free_mono f).
    + intros [Hf Hkb]%Forall_cons Hacc. apply Hsome'; [done|].
      apply Forall_app. split; [done|].
      apply Hsome. by rewrite Hholds.
Qed.

(** X21. The propositional procedure is sound on the binary grammar when no
    atom starts with a tilde: if [inference_by_resolution] returns True,
    every set of facts that makes all sentences of the knowledge base true
    makes the query true. *)
Theorem inference_sound (o : set_order) rounds fuel
    (kb : list binary_formula) (query : binary_formula) facts :
  Forall (λ f, tilde_free f = true) kb → tilde_free query = true →
  inference_by_resolution o rounds fuel (tuple_of <$> kb) (tuple_of query) = Ret true →
  Forall (λ f, holds facts f = true) kb → holds facts query = true.
Proof.
  intros Hkb Hq H Hfacts. unfold inference_by_resolution in H.
  apply bind_Ret in H as (clauses & Hclauses & H).
  apply bind_Ret in H as (nq & Hnq & H).
  apply bind_Ret in H as (cs & Hcs & H).
  apply bind_Ret in H as (sets & Hsets & H).
  destruct (holds facts query) eqn:Hquery; [done|]. exfalso.
  change (@nil (list formula))
    with ((λ c : list binary_formula, tuple_of <$> c) <$> []) in Hclauses.
  apply (kb_clauses_sound fuel facts) in Hclauses as (cl & -> & Hfree & Hsome).
  apply (convert_to_cnf_keeps fuel (BNot query)) in Hnq
    as (g & -> & Hholds & Hatoms & _).
  apply extract_clauses_sound in Hcs as (cl' & -> & Hfree' & Hsome').
  rewrite <-fmap_app in Hsets.
  apply (saturate_true_unsatisfiable o facts) in H. apply H.
  apply (stringified_clauses_true facts) in Hsets; [done| |].
  - apply Forall_app. split; [by apply Hfree|].
    apply Hfree'. by apply (tilde_free_mono (BNot query)).
  - apply Forall_app. split; [by apply Hsome|].
    apply Hsome'. rewrite Hholds. simpl. by rewrite Hquery.
Qed.

Lemma inference_sound_witness :
  holds {[ "A"; "B" ]} (BAtom "B") = true.
Proof.
  apply (inference_sound sorted 2 4
           [BAtom "A"; BImplies (BAtom "A") (BAtom "B")] (BAtom "B")).
  - repeat constructor.
  - reflexivity.
  - vm_compute. reflexivity.
  - repeat constructor; vm_compute; reflexivity.
Defined.

End Refutation.

Module Termination.
Import Wumpus WumpusFacts CnfFacts Meaning NormalForm Refutation.
#[local] Open Scope nat_scope.

Lemma elem_of_all_subsets (L c : gset string) : c ⊆ L → c ∈ all_subsets L.
Proof.
  intros Hc. unfold all_subsets. apply elem_of_list_to_set, list_elem_of_fmap.
  exists (elements c). split; [by rewrite list_to_set_elements_L|].
  apply powermset_submseteq, NoDup_submseteq; [apply NoDup_elements|].
  intros x. rewrite !elem_of_elements. apply Hc.
Qed.

Lemma resolvent_subset (o : set_order) (L ci cj c : gset string) :
  ci ⊆ L → cj ⊆ L → c ∈ resolve_clauses o ci cj → c ⊆ L.
Proof.
  intros Hi Hj. rewrite elem_of_resolve_clauses.
  intros (di & dj & _ & _ & _ & ->). set_solver.
Qed.

Lemma resolvents_subset (o : set_order) (L : gset string) clauses c :
  Forall (λ c, c ⊆ L) clauses →
  c ∈ resolvents_of o (pairs clauses) → c ⊆ L.
Proof.
  rewrite Forall_forall. intros Hall.
  rewrite elem_of_resolvents_of. intros (ci & cj & Hp & Hc).
  apply elem_of_pairs in Hp as [Hi Hj].
  eapply resolvent_subset; [| |exact Hc]; auto.
Qed.

Lemma list_to_set_append_new (clauses : list clause) (new : list clause) :
  NoDup new →
  (list_to_set (append_new clauses new) : gset clause)
  = list_to_set clauses ∪ list_to_set new.
Proof.
  intros Hnd. rewrite append_new_filter by done.
  apply set_eq. intros c.
  rewrite list_to_set_app_L, !elem_of_union, !elem_of_list_to_set, list_elem_of_filter.
  destruct (decide (c ∈ clauses)); tauto.
Qed.

Lemma saturate_within (o : set_order) (L : gset string) (m : nat) :
  ∀ clauses : list clause,
    Forall (λ c, c ⊆ L) clauses →
    size (all_subsets L ∖ list_to_set clauses) < m →
    ∃ v, saturate o m clauses = Ret v.
Proof.
  induction m as [|n IH]; intros clauses Hall Hsize; [lia|].
  simpl. rewrite scan_spec.
  destruct (decide (∅ ∈ resolvents_of o (pairs clauses))) as [_|_]; [by exists true|].
  destruct (decide (_ ⊆ _)) as [_|Hnew]; [by exists false|].
  apply IH.
  - rewrite append_new_filter by apply NoDup_iter.
    apply Forall_app. split; [done|].
    apply Forall_forall. intros c [_ Hc]%list_elem_of_filter.
    apply elem_of_iter in Hc. apply (resolvents_subset o L clauses); [done|].
    revert Hc. rewrite elem_of_union. intros [Hc|Hc]; [|done].
    by apply not_elem_of_empty in Hc.
  - rewrite list_to_set_append_new by apply NoDup_iter.
    eapply Nat.lt_le_trans; [|apply Nat.lt_succ_r, Hsize].
    apply subset_size. split.
    + intros c. rewrite !elem_of_difference, elem_of_union. tauto.
    + intros Hsub. apply Hnew. intros c Hc.
      destruct (decide (c ∈ (list_to_set clauses : gset clause))) as [|Hnc]; [done|].
      exfalso.
      assert (c ∈ all_subsets L ∖ list_to_set clauses) as Hin.
      { apply elem_of_difference. split; [|done].
        apply elem_of_all_subsets, (resolvents_subset o L clauses); [done|].
        revert Hc. rewrite elem_of_union. intros [Hc|Hc]; [|done].
        by apply not_elem_of_empty in Hc. }
      apply Hsub in Hin. revert Hin.
      rewrite elem_of_difference, elem_of_union, !elem_of_list_to_set, elem_of_iter.
      tauto.
Qed.

Lemma saturate_returns (o : set_order) (clauses : list clause) :
  ∃ rounds v, saturate o rounds clauses = Ret v.
Proof.
  exists (S (size (all_subsets (⋃ clauses) ∖ list_to_set clauses))).
  apply (saturate_within o (⋃ clauses)); [|lia].
  apply Forall_forall. intros c Hc x Hx. apply elem_of_union_list. eauto.
Qed.

(** *** The procedure returns on formulas whose negations are applied to
        formulas without IMPLIES and IFF *)

Lemma flatten_or_clause fuel :
  ∀ hs cl : list binary_formula,
    Forall (λ h, is_clause h = true) hs →
    Forall (λ h, is_literal h = true) cl →
    sum_list_with nodes hs < fuel →
    ∃ rl, flatten_or fuel (tuple_of <$> hs) (tuple_of <$> cl) = Ret (tuple_of <$> rl)
          ∧ Forall (λ h, is_literal h = true) rl
          ∧ ∀ facts, some_holds facts rl ↔ some_holds facts (hs ++ cl).
Proof.
  induction fuel as [|n IH]; intros hs cl Hhs Hcl Hn; [lia|].
  destruct hs as [|h rest]; [by exists cl|].
  apply Forall_cons in Hhs as [Hh Hrest].
  simpl in Hn.
  assert (Hlit : is_literal h = true →
    ∃ rl, flatten_or (S n) (tuple_of <$> h :: rest) (tuple_of <$> cl)
          = Ret (tuple_of <$> rl) ∧ Forall (λ h, is_literal h = true) rl
          ∧ ∀ facts, some_holds facts rl ↔ some_holds facts ((h :: rest) ++ cl)).
  { intros Hl.
    assert (operands_of "OR" (tuple_of h) = None) as Hnone
      by (by destruct h as [|[]| | | |]).
    cbn [fmap list_fmap flatten_or]. rewrite Hnone.
    change [tuple_of h] with (tuple_of <$> [h]). rewrite <-fmap_app.
    destruct (IH rest (cl ++ [h])) as (rl & Hrl & Lrl & Srl); [done| | |].
    - apply Forall_app. split; [done|]. by constructor.
    - destruct h; simpl in Hn; lia.
    - exists rl. split; [done|]. split; [done|].
      intros facts. rewrite Srl. unfold some_holds.
      rewrite !Exists_app, !Exists_cons, Exists_nil. tauto. }
  destruct h as [a|x|x y|x y|x y|x y]; try (by apply Hlit).
  clear Hlit. simpl in Hh. apply andb_true_iff in Hh as [Hx Hy].
  cbn [fmap list_fmap flatten_or tuple_of]. cbn.
  change [tuple_of x; tuple_of y] with (tuple_of <$> [x; y]).
  rewrite <-fmap_app.
  destruct (IH (rest ++ [x; y]) cl) as (rl & Hrl & Lrl & Srl); [|done| |].
  - apply Forall_app. split; [done|]. by repeat constructor.
  - rewrite sum_list_with_app. simpl in *. lia.
  - exists rl. split; [done|]. split; [done|].
    intros facts. rewrite Srl. unfold some_holds.
    rewrite !Exists_app, !Exists_cons, ?Exists_app, Exists_nil. simpl.
    rewrite orb_true_iff. tauto.
Qed.

Lemma extract_clauses_cnf fuel :
  ∀ g, is_cnf g = true → nodes g < fuel →
    ∃ cl : list (list binary_formula),
      extract_clauses fuel (tuple_of g)
      = Ret ((λ c : list binary_formula, tuple_of <$> c) <$> cl)
      ∧ Forall (Forall (λ h, is_literal h = true)) cl
      ∧ ∀ facts, holds facts g = true ↔ Forall (some_holds facts) cl.
Proof.
  induction fuel as [|n IH]; intros g Hg Hn; [lia|].
  destruct g as [a|x|x y|x y|x y|x y]; try discriminate Hg.
  - exists [[BAtom a]]. split; [done|]. split; [by repeat constructor|].
    intros facts. unfold some_holds.
    rewrite Forall_singleton, Exists_cons, Exists_nil. tauto.
  - exists [[BNot x]]. split; [done|]. split; [by repeat constructor|].
    intros facts. unfold some_holds.
    rewrite Forall_singleton, Exists_cons, Exists_nil. tauto.
  - simpl in Hg, Hn. apply andb_true_iff in Hg as [Hx Hy].
    destruct (IH x Hx) as (lx & Ex & Lx & Sx); [lia|].
    destruct (IH y Hy) as (ly & Ey & Ly & Sy); [lia|].
    exists (lx ++ ly). split; [|split; [by apply Forall_app|]].
    + cbn. rewrite Ex, Ey. cbn. by rewrite app_nil_r, fmap_app.
    + intros facts. simpl. by rewrite andb_true_iff, Forall_app, Sx, Sy.
  - simpl in Hg, Hn. apply andb_true_iff in Hg as [Hx Hy].
    destruct (flatten_or_clause n [x; y] []) as (rl & Hrl & Lrl & Srl).
    + by repeat constructor.
    + constructor.
    + simpl. lia.
    + exists [rl]. split; [|split; [by repeat constructor|]].
      * cbn. cbn in Hrl. by rewrite Hrl.
      * intros facts. rewrite Forall_singleton, Srl. unfold some_holds.
        rewrite app_nil_r, !Exists_cons, Exists_nil. simpl.
        rewrite orb_true_iff. tauto.
Qed.

Lemma extract_clauses_returns fuel :
  ∀ g, is_cnf g = true → nodes g < fuel →
    ∃ cl : list (list binary_formula),
      extract_clauses fuel (tuple_of g)
      = Ret ((λ c : list binary_formula, tuple_of <$> c) <$> cl)
      ∧ Forall (Forall (λ h, is_literal h = true)) cl.
Proof.
  intros g Hg Hn.
  destruct (extract_clauses_cnf fuel g Hg Hn) as (cl & H1 & H2 & _). by exists cl.
Qed.

Lemma literal_to_string_returns (h : binary_formula) :
  is_literal h = true → ∃ s, literal_to_string (tuple_of h) = Ret s.
Proof. destruct h as [a|[a| | | | |]| | | |]; try done; cbn; eauto. Qed.

Lemma stringified_returns (cl : list (list binary_formula)) :
  Forall (Forall (λ h, is_literal h = true)) cl →
  ∃ sets, mapM (λ lits, ls ← mapM literal_to_string lits;
                        Ret (list_to_set ls : clause))
               ((λ c : list binary_formula, tuple_of <$> c) <$> cl) = Ret sets.
Proof.
  induction cl as [|c cl IH]; intros Hcl; [by exists []|].
  apply Forall_cons in Hcl as [Hc Hcl].
  destruct (IH Hcl) as (sets & Hsets).
  assert (∃ ls, mapM literal_to_string (tuple_of <$> c) = Ret ls) as (ls & Hls).
  { clear -Hc. induction c as [|h c IHc]; [by exists []|].
    apply Forall_cons in Hc as [Hh Hc].
    destruct (IHc Hc) as (ls & Hls).
    destruct (literal_to_string_returns h Hh) as (s & Hs).
    exists (s :: ls). cbn. by rewrite Hs, Hls. }
  exists (list_to_set ls :: sets). cbn. rewrite Hls. cbn.
  cbn in Hsets. by rewrite Hsets.
Qed.

Lemma sentence_clauses_return (f : binary_formula) :
  regular f = true →
  ∃ n, ∀ fuel, n ≤ fuel →
    ∃ cnf (cl : list (list binary_formula)),
      convert_to_cnf fuel (tuple_of f) = Ret cnf
      ∧ extract_clauses fuel cnf
        = Ret ((λ c : list binary_formula, tuple_of <$> c) <$> cl)
      ∧ Forall (Forall (λ h, is_literal h = true)) cl.
Proof.
  intros Hf.
  destruct (convert_to_cnf_returns_kept f) as (g & [n Hn] & _ & _ & Hcnf).
  specialize (Hcnf Hf).
  exists (n + S (nodes g)). intros fuel Hfuel.
  destruct (extract_clauses_returns fuel g Hcnf) as (cl & Hcl & Hlit); [lia|].
  exists (tuple_of g), cl. split; [apply Hn; lia|done].
Qed.

Lemma kb_clauses_return (kb : list binary_formula) :
  Forall (λ f, regular f = true) kb →
  ∃ n, ∀ fuel, n ≤ fuel → ∀ accl : list (list binary_formula),
    Forall (Forall (λ h, is_literal h = true)) accl →
    ∃ cl : list (list binary_formula),
      foldM (λ sentence clauses,
               cnf ← convert_to_cnf fuel sentence;
               cs ← extract_clauses fuel cnf;
               Ret (clauses ++ cs)) (tuple_of <$> kb)
            ((λ c : list binary_formula, tuple_of <$> c) <$> accl)
      = Ret ((λ c : list binary_formula, tuple_of <$> c) <$> cl)
      ∧ Forall (Forall (λ h, is_literal h = true)) cl.
Proof.
  induction kb as [|f kb IH]; intros Hkb.
  - exists 0. intros fuel _ accl Hacc. by exists accl.
  - apply Forall_cons in Hkb as [Hf Hkb].
    destruct (IH Hkb) as (n1 & H1).
    destruct (sentence_clauses_return f Hf) as (n2 & H2).
    exists (n1 + n2). intros fuel Hfuel accl Hacc.
    destruct (H2 fuel) as (cnf & cl & Hcnf & Hcl & Hlit); [lia|].
    destruct (H1 fuel ltac:(lia) (accl ++ cl)) as (cl' & Hcl' & Hlit').
    { by apply Forall_app. }
    exists cl'. split; [|done].
    cbn [fmap list_fmap foldM]. rewrite Hcnf. cbn. rewrite Hcl. cbn.
    rewrite <-fmap_app. exact Hcl'.
Qed.

(** X22. The propositional procedure returns a verdict: when every NOT in
    the sentences of the knowledge base is applied to a formula without
    IMPLIES and IFF, and the query holds no IMPLIES and no IFF, then at every
    large enough recursion depth the conversions return, no literal is
    refused and the [while True] loop ends after finitely many rounds. *)
Theorem inference_returns (o : set_order)
    (kb : list binary_formula) (query : binary_formula) :
  Forall (λ f, regular f = true) kb → plain query = true →
  ∃ n, ∀ fuel, n ≤ fuel →
    ∃ rounds v,
      inference_by_resolution o rounds fuel (tuple_of <$> kb) (tuple_of query) = Ret v.
Proof.
  intros Hkb Hq.
  destruct (kb_clauses_return kb Hkb) as (n1 & H1).
  destruct (sentence_clauses_return (BNot query) Hq) as (n2 & H2).
  exists (n1 + n2). intros fuel Hfuel.
  destruct (H1 fuel ltac:(lia) []) as (cl & Hcl & Hlit); [constructor|].
  destruct (H2 fuel) as (cnf & cl' & Hcnf & Hcl' & Hlit'); [lia|].
  destruct (stringified_returns (cl ++ cl')) as (sets & Hsets).
  { by apply Forall_app. }
  destruct (saturate_returns o sets) as (rounds & v & Hv).
  exists rounds, v. unfold inference_by_resolution.
  cbn in Hcl. rewrite Hcl. cbn.
  cbn in Hcnf. rewrite Hcnf. cbn. rewrite Hcl'. cbn.
  rewrite <-fmap_app. rewrite Hsets. cbn. exact Hv.
Qed.

Lemma inference_returns_witness :
  ∃ n, ∀ fuel, n ≤ fuel →
    ∃ rounds v,
      inference_by_resolution sorted rounds fuel
        (tuple_of <$> [BAtom "A"; BImplies (BAtom "A") (BAtom "B")])
        (tuple_of (BAtom "B")) = Ret v.
Proof. apply inference_returns; [repeat constructor | reflexivity]. Defined.

End Termination.

Module KnowledgeBase.
Import Wumpus WumpusFacts CnfFacts Meaning NormalForm Refutation Termination.

(** *** The order of the sentences of the knowledge base *)

Lemma kb_clauses_acc_perm fuel (kb : list formula) :
  ∀ acc acc' cl, acc ≡ₚ acc' →
    foldM (λ sentence clauses,
             cnf ← convert_to_cnf fuel sentence;
             cs ← extract_clauses fuel cnf;
             Ret (clauses ++ cs)) kb acc = Ret cl →
    ∃ cl', foldM (λ sentence clauses,
                    cnf ← convert_to_cnf fuel sentence;
                    cs ← extract_clauses fuel cnf;
                    Ret (clauses ++ cs)) kb acc' = Ret cl' ∧ cl ≡ₚ cl'.
Proof.
  induction kb as [|f kb IH]; intros acc acc' cl Hp H.
  - injection H as <-. by exists acc'.
  - cbn [foldM] in *. apply bind_Ret in H as (acc1 & Hstep & H).
    apply bind_Ret in Hstep as (cnf & Hcnf & Hstep).
    apply bind_Ret in Hstep as (cs & Hcs & [= <-]).
    rewrite Hcnf. cbn. rewrite Hcs. cbn.
    apply (IH (acc ++ cs) (acc' ++ cs)); [by rewrite Hp|done].
Qed.

Lemma kb_clauses_perm fuel (kb kb' : list formula) :
  kb ≡ₚ kb' →
  ∀ acc acc' cl, acc ≡ₚ acc' →
    foldM (λ sentence clauses,
             cnf ← convert_to_cnf fuel sentence;
             cs ← extract_clauses fuel cnf;
             Ret (clauses ++ cs)) kb acc = Ret cl →
    ∃ cl', foldM (λ sentence clauses,
                    cnf ← convert_to_cnf fuel sentence;
                    cs ← extract_clauses fuel cnf;
                    Ret (clauses ++ cs)) kb' acc' = Ret cl' ∧ cl ≡ₚ cl'.
Proof.
  induction 1 as [|x l l' Hp IH|x y l|l l' l'' Hp1 IH1 Hp2 IH2];
    intros acc acc' cl Hacc H.
  - injection H as <-. by exists acc'.
  - cbn [foldM] in *. apply bind_Ret in H as (acc1 & Hstep & H).
    apply bind_Ret in Hstep as (cnf & Hcnf & Hstep).
    apply bind_Ret in Hstep as (cs & Hcs & [= <-]).
    rewrite Hcnf. cbn. rewrite Hcs. cbn.
    apply (IH (acc ++ cs) (acc' ++ cs)); [by rewrite Hacc|done].
  - cbn [foldM] in *. apply bind_Ret in H as (acc1 & Hstep & H).
    apply bind_Ret in Hstep as (cnf & Hcnf & Hstep).
    apply bind_Ret in Hstep as (cs & Hcs & [= <-]).
    apply bind_Ret in H as (acc2 & Hstep & H).
    apply bind_Ret in Hstep as (cnf' & Hcnf' & Hstep).
    apply bind_Ret in Hstep as (cs' & Hcs' & [= <-]).
    rewrite Hcnf'. cbn. rewrite Hcs'. cbn. rewrite Hcnf. cbn. rewrite Hcs. cbn.
    apply (kb_clauses_acc_perm fuel l ((acc ++ cs) ++ cs')); [|done].
    rewrite Hacc, <-!(assoc_L (++)). f_equiv. apply Permutation_app_comm.
  - destruct (IH1 acc acc cl) as (cl1 & H1 & Hp1'); [done|done|].
    destruct (IH2 acc acc' cl1) as (cl2 & H2 & Hp2'); [done|done|].
    exists cl2. split; [done|by etrans].
Qed.

(** X20. The verdict of the propositional procedure does not depend on the
    order of the sentences in the knowledge base. *)
Theorem inference_kb_perm (o : set_order) rounds fuel (kb kb' : list formula) query v :
  kb ≡ₚ kb' →
  inference_by_resolution o rounds fuel kb query = Ret v →
  inference_by_resolution o rounds fuel kb' query = Ret v.
Proof.
  intros Hp H. unfold inference_by_resolution in *.
  apply bind_Ret in H as (clauses & Hclauses & H).
  apply bind_Ret in H as (nq & Hnq & H).
  apply bind_Ret in H as (cs & Hcs & H).
  apply bind_Ret in H as (sets & Hsets & H).
  destruct (kb_clauses_perm fuel kb kb' Hp [] [] clauses) as (cl' & Hcl' & Hperm);
    [done|done|].
  rewrite Hcl'. cbn. rewrite Hnq. cbn. rewrite Hcs. cbn.
  destruct (mapM_perm _ (clauses ++ cs) (cl' ++ cs) ltac:(by rewrite Hperm) sets Hsets)
    as (sets' & Hsets' & Hp').
  rewrite Hsets'. cbn. by rewrite <-(saturate_perm o o rounds sets sets' Hp').
Qed.

Lemma inference_kb_perm_witness :
  inference_by_resolution sorted 2 4 [Implies (Atom "A") (Atom "B"); Atom "A"] (Atom "B")
  = Ret true.
Proof.
  apply (inference_kb_perm sorted 2 4 kb_ab).
  - apply perm_swap.
  - vm_compute. reflexivity.
Defined.

End KnowledgeBase.

Module AtomicFacts.
Import Wumpus WumpusFacts CnfFacts Meaning NormalForm Refutation Termination.

Lemma atoms_clauses n (names : list string) :
  ∀ acc,
    foldM (λ sentence clauses,
             cnf ← convert_to_cnf (S n) sentence;
             cs ← extract_clauses (S n) cnf;
             Ret (clauses ++ cs)) (Atom <$> names) acc
    = Ret (acc ++ ((λ s, [Atom s]) <$> names)).
Proof.
  induction names as [|s names IH]; intros acc.
  - cbn. by rewrite app_nil_r.
  - cbn [fmap list_fmap foldM]. cbn. rewrite IH.
    by rewrite <-(assoc_L (++)).
Qed.

Lemma atoms_stringified (names : list string) (rest : list (list formula)) :
  mapM (λ lits, ls ← mapM literal_to_string lits; Ret (list_to_set ls : clause))
       (((λ s, [Atom s]) <$> names) ++ rest)
  = sets ← mapM (λ lits, ls ← mapM literal_to_string lits;
                         Ret (list_to_set ls : clause)) rest;
    Ret (((λ s, {[ s ]} : clause) <$> names) ++ sets).
Proof.
  induction names as [|s names IH].
  - cbn. by destruct (mapM _ rest).
  - cbn [fmap list_fmap app mapM]. rewrite IH. cbn.
    destruct (mapM _ rest); cbn; [|done|done].
    by rewrite (right_id_L ∅ (∪)).
Qed.

Lemma inference_of_atoms (o : set_order) rounds n (names : list string) q :
  inference_by_resolution o rounds (S n) (Atom <$> names) (Atom q)
  = saturate o rounds (((λ s, {[ s ]} : clause) <$> names) ++ [ {[ "~" +:+ q ]} ]).
Proof.
  unfold inference_by_resolution. rewrite atoms_clauses. cbn.
  rewrite atoms_stringified. cbn. by rewrite (right_id_L ∅ (∪)).
Qed.

Lemma elem_of_pairs_last {A} (l : list A) a b : a ∈ l → (a, b) ∈ pairs (l ++ [b]).
Proof.
  induction l as [|x l IH]; [by intros ?%elem_of_nil|].
  intros [->|Ha]%elem_of_cons; cbn [app]; rewrite elem_of_pairs_cons.
  - left. split; [done|]. apply elem_of_app. right. by apply list_elem_of_singleton.
  - right. by apply IH.
Qed.

Lemma tilde_not_self s : s ≠ "~" +:+ s.
Proof.
  intros H. apply (f_equal String.length) in H.
  rewrite tilde_cons in H. simpl in H. lia.
Qed.

(** X23. On a knowledge base of atomic facts none of which starts with a
    tilde, an atomic query is answered in the first round, and the answer is
    True exactly when the query is one of the facts; on the empty knowledge
    base it is False. *)
Theorem atomic_kb_verdict (o : set_order) r n (names : list string) q :
  Forall (λ s, Py.startswith "~" s = false) names →
  inference_by_resolution o (S r) (S n) (Atom <$> names) (Atom q)
  = Ret (bool_decide (q ∈ names)).
Proof.
  intros Hfree. rewrite inference_of_atoms. cbn [saturate]. rewrite scan_spec.
  set (clauses := ((λ s, {[ s ]} : clause) <$> names) ++ [ {[ "~" +:+ q ]} ]).
  destruct (decide (q ∈ names)) as [Hq|Hq].
  - rewrite bool_decide_eq_true_2 by done.
    rewrite decide_True; [done|].
    apply elem_of_resolvents_of. exists {[ q ]}, {[ "~" +:+ q ]}. split.
    + apply elem_of_pairs_last, list_elem_of_fmap. by exists q.
    + apply elem_of_resolve_clauses. exists q, ("~" +:+ q).
      split; [by apply elem_of_singleton|]. split; [by apply elem_of_singleton|].
      split; [by right|]. set_solver.
  - rewrite bool_decide_eq_false_2 by done.
    assert (∀ c, c ∉ resolvents_of o (pairs clauses)) as Hnone.
    { intros c. rewrite elem_of_resolvents_of. intros (ci & cj & Hp & Hc).
      apply elem_of_pairs in Hp as [Hi Hj].
      apply elem_of_resolve_clauses in Hc as (di & dj & Hdi & Hdj & Hcomp & _).
      assert (∀ (c : clause) d, c ∈ clauses → d ∈ c →
                (d ∈ names ∧ Py.startswith "~" d = false) ∨ d = "~" +:+ q) as Hlit.
      { intros c' d Hc' Hd. unfold clauses in Hc'.
        apply elem_of_app in Hc' as [Hc'|Hc'].
        - apply list_elem_of_fmap in Hc' as (s & -> & Hs).
          apply elem_of_singleton in Hd as ->. left. split; [done|].
          by apply (proj1 (Forall_forall _ _) Hfree).
        - apply list_elem_of_singleton in Hc' as ->.
          apply elem_of_singleton in Hd as ->. by right. }
      destruct (Hlit ci di Hi Hdi) as [[Ni Fi]|Ei];
        destruct (Hlit cj dj Hj Hdj) as [[Nj Fj]|Ej];
        destruct Hcomp as [Hcomp|Hcomp]; rewrite ?tilde_cons in *;
        subst;
        repeat match goal with
               | H : String _ _ = String _ _ |- _ => injection H as H; try subst
               end;
        first [ done
              | match goal with
                | H : ?s = String _ ?s |- _ => by apply tilde_not_self in H
                | H : String _ ?s = ?s |- _ =>
                    symmetry in H; by apply tilde_not_self in H
                end ]. }
    rewrite decide_False by apply Hnone.
    rewrite decide_True; [done|].
    intros c [Hc|Hc]%elem_of_union; [by apply not_elem_of_empty in Hc|].
    by apply Hnone in Hc.
Qed.

Lemma atomic_kb_verdict_witness :
  inference_by_resolution sorted 1 1 (Atom <$> ["A"; "B"]) (Atom "C")
  = Ret (bool_decide ("C" ∈ ["A"; "B"])).
Proof. apply atomic_kb_verdict. repeat constructor. Defined.

(** X24. An atom whose name starts with a tilde is taken for a negated
    literal.  When the facts of the knowledge base include an atom and the
    atom named by a tilde in front of it, every atomic query is answered
    True, also one that is not among the facts and that the facts do not
    entail. *)
Theorem tilde_named_atom_refutes (o : set_order) r n (names : list string) a q :
  a ∈ names → "~" +:+ a ∈ names → q ∉ names →
  inference_by_resolution o (S r) (S n) (Atom <$> names) (Atom q) = Ret true
  ∧ ∃ facts, Forall (λ s, holds facts (BAtom s) = true) names
             ∧ holds facts (BAtom q) = false.
Proof.
  intros Ha Hna Hq. split; [|exists (list_to_set names); split].
  2: { apply Forall_forall. intros s Hs. simpl.
       by apply bool_decide_eq_true_2, elem_of_list_to_set. }
  2: { simpl. apply bool_decide_eq_false_2. by rewrite elem_of_list_to_set. }
  rewrite inference_of_atoms. cbn [saturate]. rewrite scan_spec.
  rewrite decide_True; [done|].
  assert (∀ (l : list clause) (x y : clause), x ∈ l → y ∈ l → x ≠ y →
            (x, y) ∈ pairs l ∨ (y, x) ∈ pairs l) as Hpairs.
  { intros l x y. induction l as [|z l IH]; [by intros ?%elem_of_nil|].
    rewrite !elem_of_cons, !elem_of_pairs_cons.
    intros [->|Hx] [->|Hy] Hne; try done.
    - left. by left.
    - right. by left.
    - destruct (IH Hx Hy Hne); [left|right]; by right. }
  set (clauses := ((λ s, {[ s ]} : clause) <$> names) ++ [ {[ "~" +:+ q ]} ]).
  assert (({[ a ]} : clause) ∈ clauses) as H1.
  { apply elem_of_app. left. apply list_elem_of_fmap. by exists a. }
  assert (({[ "~" +:+ a ]} : clause) ∈ clauses) as H2.
  { apply elem_of_app. left. apply list_elem_of_fmap. by exists ("~" +:+ a). }
  assert (({[ a ]} : clause) ≠ {[ "~" +:+ a ]}) as Hne.
  { intros H. assert (a ∈ ({[ "~" +:+ a ]} : clause)) as Hin by (rewrite <-H; set_solver).
    apply elem_of_singleton in Hin. by apply tilde_not_self in Hin. }
  apply elem_of_resolvents_of.
  destruct (Hpairs clauses _ _ H1 H2 Hne) as [Hp|Hp].
  - exists {[ a ]}, {[ "~" +:+ a ]}. split; [done|].
    apply elem_of_resolve_clauses. exists a, ("~" +:+ a).
    split; [by apply elem_of_singleton|]. split; [by apply elem_of_singleton|].
    split; [by right|]. set_solver.
  - exists {[ "~" +:+ a ]}, {[ a ]}. split; [done|].
    apply elem_of_resolve_clauses. exists ("~" +:+ a), a.
    split; [by apply elem_of_singleton|]. split; [by apply elem_of_singleton|].
    split; [by left|]. set_solver.
Qed.

Lemma tilde_named_atom_refutes_witness :
  inference_by_resolution sorted 1 1 (Atom <$> ["A"; "~A"]) (Atom "B") = Ret true
  ∧ ∃ facts, Forall (λ s, holds facts (BAtom s) = true) ["A"; "~A"]
             ∧ holds facts (BAtom "B") = false.
Proof.
  apply (tilde_named_atom_refutes sorted 0 0 ["A"; "~A"] "A" "B").
  - apply elem_of_cons. by left.
  - apply elem_of_cons. right. apply elem_of_cons. by left.
  - rewrite !elem_of_cons, elem_of_nil. intros [H|[H|[]]]; discriminate H.
Defined.

End AtomicFacts.

Module QueryShape.
Import Wumpus WumpusFacts CnfFacts Meaning NormalForm Refutation Termination.
#[local] Open Scope nat_scope.

Lemma convert_not_implies_shape n a b c :
  convert_to_cnf n (Not (Implies a b)) = Ret c →
  ∃ op ops, c = Not (Node op ops) ∧ (op = "OR" ∨ op = "AND").
Proof.
  destruct n as [|n]; [done|]. cbn.
  intros (c' & Hc & [= <-])%bind_Ret.
  apply convert_implies_shape in Hc as [cs [-> | ->]]; eauto.
Qed.

Lemma convert_not_iff_shape n a b c :
  convert_to_cnf n (Not (Iff a b)) = Ret c →
  ∃ op ops, c = Not (Node op ops) ∧ (op = "OR" ∨ op = "AND").
Proof.
  destruct n as [|n]; [done|]. cbn.
  intros (c' & Hc & [= <-])%bind_Ret.
  apply convert_iff_shape in Hc as [cs [-> | ->]]; eauto.
Qed.

Lemma mapM_app_raise {A B} (f : A → result B) (l1 l2 : list A) r1 e :
  mapM f l1 = Ret r1 → mapM f l2 = Raise e → mapM f (l1 ++ l2) = Raise e.
Proof.
  revert r1. induction l1 as [|x l1 IH]; intros r1; simpl.
  - by intros _ ->.
  - intros (y & Hy & H)%bind_Ret. apply bind_Ret in H as (ys & Hys & _).
    intros H2. rewrite Hy. simpl. by rewrite (IH _ Hys H2).
Qed.

Lemma negated_junction_raises (o : set_order) (kb : list binary_formula)
    (query : binary_formula) :
  (∀ n c, convert_to_cnf n (Not (tuple_of query)) = Ret c →
          ∃ op ops, c = Not (Node op ops) ∧ (op = "OR" ∨ op = "AND")) →
  Forall (λ f, regular f = true) kb →
  ∃ n, ∀ fuel rounds, n ≤ fuel →
    inference_by_resolution o rounds fuel (tuple_of <$> kb) (tuple_of query)
    = Raise ValueError.
Proof.
  intros Hshape Hkb.
  destruct (kb_clauses_return kb Hkb) as (n1 & H1).
  destruct (convert_to_cnf_bounded (weight (BNot query)) (BNot query))
    as (g & [n2 H2] & _ & _); [lia|].
  exists (S (n1 + n2)). intros fuel rounds Hfuel.
  destruct (H1 fuel ltac:(lia) []) as (cl & Hcl & Hlit); [constructor|].
  specialize (H2 fuel ltac:(lia)).
  destruct (Hshape _ _ H2) as (op & ops & Hg & Hop).
  destruct (stringified_returns cl Hlit) as (sets & Hsets).
  unfold inference_by_resolution.
  cbn in Hcl. rewrite Hcl. cbn.
  cbn in H2. rewrite H2. cbn. rewrite Hg.
  destruct fuel as [|m]; [lia|]. cbn.
  erewrite mapM_app_raise; [done|exact Hsets|].
  cbn [mapM]. by rewrite literal_to_string_junction.
Qed.

End QueryShape.

(** * Laws of the two engines *)

(** ** The first-order engine: parsing, unification and the resolution step *)

Module FolLaws.
Import Fol FolFacts Printed PrintedFacts ResolveFacts SubstitutionFacts FolLoopFacts.

(** X2. [parse_sentence] reads back what [apply_substitution_to_literal]
    prints: for a predicate symbol of word characters, with or without the
    negation marker, and at least one argument, where no argument holds a
    comma or a line break and no argument after the first starts with white
    space, parsing the printed literal returns the predicate and the
    arguments. *)
Theorem parse_sentence_print_round_trip name a args :
  symbol name = true → argument a = true →
  Forall (λ b, argument b = true ∧ no_leading_space b = true) args →
  parse_sentence (print name (a :: args)) = (Some name, a :: args)
  ∧ parse_sentence (print (Neg name) (a :: args)) = (Some (Neg name), a :: args).
Proof.
  intros Hname Ha Hargs. split.
  - by apply parse_sentence_print_positive.
  - by apply parse_sentence_print_negative.
Qed.

Lemma parse_sentence_print_round_trip_witness :
  parse_sentence (print "King" ["x"; "John"]) = (Some "King", ["x"; "John"])
  ∧ parse_sentence (print (Neg "King") ["x"; "John"])
    = (Some (Neg "King"), ["x"; "John"]).
Proof.
  apply parse_sentence_print_round_trip;
    [reflexivity | reflexivity | repeat constructor].
Defined.

(** X3. Whenever [parse_sentence] finds a predicate, the predicate is a
    nonempty run of word characters with at most one negation marker in
    front, there is at least one argument (an empty parenthesis gives one
    empty argument), no argument holds a comma or a line break, and no
    argument after the first starts with white space. *)
Theorem parse_sentence_result_shape sentence predicate args :
  parse_sentence sentence = (Some predicate, args) →
  ∃ name a rest,
    symbol name = true ∧ (predicate = name ∨ predicate = Neg name)
    ∧ args = a :: rest ∧ argument a = true
    ∧ Forall (λ b, argument b = true ∧ no_leading_space b = true) rest.
Proof. apply parse_sentence_shape. Qed.

Lemma parse_sentence_result_shape_witness :
  ∃ name a rest,
    symbol name = true ∧ ("King" = name ∨ "King" = Neg name)
    ∧ ["x"; "John"] = a :: rest ∧ argument a = true
    ∧ Forall (λ b, argument b = true ∧ no_leading_space b = true) rest.
Proof.
  apply (parse_sentence_result_shape "King(x, John)"). vm_compute. reflexivity.
Defined.

(** X5. Unifying any sentence with itself, also one that does not parse,
    takes the successful return of [unify] and gives the empty
    substitution. *)
Theorem unify_sentence_with_itself n sentence :
  unify_branch (S n) sentence sentence = Ret (Some ∅)
  ∧ unify (S n) sentence sentence = Ret ∅.
Proof. split; [apply unify_branch_same | apply unify_same]. Qed.

(** X7. [resolve] returns the empty set, and raises nothing, when no pair
    of literals of the two clauses passes its tests of opposite polarity
    and equal text before the first parenthesis. *)
Theorem resolve_without_complementary_pair (o : set_order) fuel c1 c2 :
  (∀ l1 l2, l1 ∈ c1 → l2 ∈ c2 → complementary l1 l2 = None) →
  resolve o fuel c1 c2 = Ret ∅.
Proof. apply resolve_no_pair. Qed.

Lemma resolve_without_complementary_pair_witness :
  resolve sorted 1 {[ "King(x)" ]} {[ "Greedy(x)" ]} = Ret ∅.
Proof.
  apply resolve_without_complementary_pair.
  intros l1 l2 ->%elem_of_singleton ->%elem_of_singleton. reflexivity.
Defined.

(** X8. For two unit clauses whose literals pass the tests of [resolve],
    [resolve] does what [unify] does on the two atoms: when [unify] returns,
    with whatever dictionary (also the empty one of a failed unification),
    the substitution is not None, nothing is left of the two clauses and
    [resolve] returns the set that holds the empty clause; when [unify] does
    not return, [resolve] does not return either. *)
Theorem resolve_complementary_units (o : set_order) fuel l1 l2 s1 s2 :
  complementary l1 l2 = Some (s1, s2) →
  resolve o fuel {[ l1 ]} {[ l2 ]} = unify fuel s1 s2 ≫= λ _, Ret {[ ∅ ]}.
Proof.
  intros Hc. destruct (unify fuel s1 s2) as [d|e|] eqn:Hu.
  - by apply (resolve_units o fuel l1 l2 s1 s2 d).
  - unfold resolve. rewrite !iter_singleton. cbn.
    unfold resolve_step, resolvent. by rewrite Hc, Hu.
  - unfold resolve. rewrite !iter_singleton. cbn.
    unfold resolve_step, resolvent. by rewrite Hc, Hu.
Qed.

Lemma resolve_complementary_units_witness :
  resolve sorted 1 {[ Neg "Loves(x, Mary)" ]} {[ "Loves(John, Anne)" ]} = Ret {[ ∅ ]}
  ∧ resolve sorted 20 {[ Neg "P(x, y, x)" ]} {[ "P(f(y), f(x), y)" ]} = OutOfFuel.
Proof.
  split.
  - rewrite (resolve_complementary_units sorted 1 _ _
               "Loves(x, Mary)" "Loves(John, Anne)") by reflexivity.
    assert (unify 1 "Loves(x, Mary)" "Loves(John, Anne)" = Ret ∅) as ->
      by (vm_compute; reflexivity).
    reflexivity.
  - rewrite (resolve_complementary_units sorted 20 _ _
               "P(x, y, x)" "P(f(y), f(x), y)") by reflexivity.
    assert (unify 20 "P(x, y, x)" "P(f(y), f(x), y)" = OutOfFuel) as ->
      by (vm_compute; reflexivity).
    reflexivity.
Defined.

(** X9. The set [resolve] returns does not depend on the order in which
    the loops visit the literals of the two clauses and of the new clause. *)
Theorem resolve_any_order (o o' : set_order) fuel c1 c2 r :
  resolve o fuel c1 c2 = Ret r → resolve o' fuel c1 c2 = Ret r.
Proof. apply resolve_order. Qed.

Lemma resolve_any_order_witness :
  resolve reversed 1 {[ Neg "King(x)"; "Evil(x)" ]} {[ "King(John)" ]}
  = Ret {[ {[ "Evil(John)" ]} ]}.
Proof.
  apply (resolve_any_order sorted reversed).
  apply resolve_yields_true. vm_compute. reflexivity.
Defined.

End FolLaws.

(** ** The propositional engine: truth, normal form, clauses and the loop *)

Module WumpusLaws.
Import Wumpus WumpusFacts CnfFacts Meaning NormalForm Refutation Termination.
Import KnowledgeBase AtomicFacts QueryShape.

(** X12. On the binary grammar [World.ask] raises nothing and never returns
    None: it returns the truth value of the sentence under the facts. *)
Theorem ask_is_truth_table (facts : gset string) (f : binary_formula) :
  ask facts (tuple_of f) = Ret (PyBool (holds facts f)).
Proof. apply ask_tuple_of. Qed.

(** X13. When every NOT of a formula of the binary grammar is applied to a
    formula without IMPLIES and IFF, [convert_to_cnf] returns, at every
    large enough recursion depth, a conjunction of disjunctions of literals
    whose atoms are atoms of the formula. *)
Theorem convert_to_cnf_reaches_normal_form (f : binary_formula) :
  regular f = true →
  ∃ g, converts (tuple_of f) (tuple_of g)
       ∧ is_cnf g = true ∧ atoms g ⊆ atoms f.
Proof.
  intros Hf. destruct (convert_to_cnf_returns_kept f) as (g & Hg & _ & Ha & Hc).
  exists g. split; [exact Hg|]. split; [exact (Hc Hf) | exact Ha].
Qed.

Lemma convert_to_cnf_reaches_normal_form_witness :
  ∃ g, converts
         (tuple_of (BIff (BAtom "B11") (BOr (BAtom "P12") (BAtom "P21"))))
         (tuple_of g)
       ∧ is_cnf g = true
       ∧ atoms g ⊆ atoms (BIff (BAtom "B11") (BOr (BAtom "P12") (BAtom "P21"))).
Proof. apply convert_to_cnf_reaches_normal_form. reflexivity. Defined.

(** X15. On a conjunctive normal form [_extract_clauses] returns, at every
    recursion depth above the size of the formula, lists of literals, and
    the formula is true exactly when every list holds a true literal. *)
Theorem clauses_of_normal_form fuel (g : binary_formula) :
  is_cnf g = true → (nodes g < fuel)%nat →
  ∃ cl : list (list binary_formula),
    extract_clauses fuel (tuple_of g)
    = Ret ((λ c : list binary_formula, tuple_of <$> c) <$> cl)
    ∧ Forall (Forall (λ h, is_literal h = true)) cl
    ∧ ∀ facts, holds facts g = true ↔ Forall (some_holds facts) cl.
Proof. apply extract_clauses_cnf. Qed.

Lemma clauses_of_normal_form_witness :
  ∃ cl : list (list binary_formula),
    extract_clauses 7
      (tuple_of (BAnd (BOr (BAtom "A") (BNot (BAtom "B"))) (BAtom "C")))
    = Ret ((λ c : list binary_formula, tuple_of <$> c) <$> cl)
    ∧ Forall (Forall (λ h, is_literal h = true)) cl
    ∧ ∀ facts,
        holds facts (BAnd (BOr (BAtom "A") (BNot (BAtom "B"))) (BAtom "C")) = true
        ↔ Forall (some_holds facts) cl.
Proof. apply clauses_of_normal_form; [reflexivity | simpl; lia]. Defined.

(** X16. [resolve_clauses] gives the same resolvents for a pair of clauses
    and for the swapped pair, in any two orders of iteration. *)
Theorem resolve_clauses_symmetric (o o' : set_order) ci cj :
  resolve_clauses o ci cj = resolve_clauses o' cj ci.
Proof. rewrite (resolve_clauses_order o o'). apply resolve_clauses_sym. Qed.

(** X17. The resolution step is sound: when a leading tilde is read as a
    negation, every resolvent of two clauses that each hold a true literal
    holds a true literal. *)
Theorem resolvent_of_true_clauses_is_true (o : set_order) facts ci cj c :
  clause_true facts ci → clause_true facts cj →
  c ∈ resolve_clauses o ci cj → clause_true facts c.
Proof. apply resolvent_true. Qed.

Lemma resolvent_of_true_clauses_is_true_witness :
  clause_true {[ "B" ]} {[ "B" ]}.
Proof.
  apply (resolvent_of_true_clauses_is_true sorted {[ "B" ]} {[ "A"; "B" ]} {[ "~A" ]}).
  - exists "B". split; [compute_done | reflexivity].
  - exists "~A". split; [compute_done | reflexivity].
  - compute_done.
Defined.

(** X18. The [while True] loop of the propositional procedure ends on every
    list of clauses: some number of rounds suffices for a verdict. *)
Theorem saturate_always_returns (o : set_order) (clauses : list clause) :
  ∃ rounds v, saturate o rounds clauses = Ret v.
Proof. apply saturate_returns. Qed.

(** X19. What the propositional procedure returns or raises does not depend
    on the order in which its loops visit the elements of a set. *)
Theorem verdict_independent_of_set_order (o o' : set_order) rounds fuel kb query :
  inference_by_resolution o rounds fuel kb query
  = inference_by_resolution o' rounds fuel kb query.
Proof. apply inference_by_resolution_order. Qed.

(** X25. A query that is an implication or an equivalence never gets a
    verdict, whatever the knowledge base and the operands: the negated query
    is converted to a NOT around a disjunction or a conjunction, which
    [_extract_clauses] keeps as one literal and [_literal_to_string]
    refuses. *)
Theorem implication_query_has_no_verdict (o : set_order) rounds fuel kb a b :
  is_ret (inference_by_resolution o rounds fuel kb (Implies a b)) = false
  ∧ is_ret (inference_by_resolution o rounds fuel kb (Iff a b)) = false.
Proof.
  split.
  - destruct (inference_by_resolution o rounds fuel kb (Implies a b)) as [v| |] eqn:E;
      [|done|done].
    exfalso. revert E. by apply negated_junction_not_stringified;
      [intros n c; apply convert_implies_shape | | | |].
  - destruct (inference_by_resolution o rounds fuel kb (Iff a b)) as [v| |] eqn:E;
      [|done|done].
    exfalso. revert E. by apply negated_junction_not_stringified;
      [intros n c; apply convert_iff_shape | | | |].
Qed.

(** X26. For a knowledge base whose NOTs are applied to formulas without
    IMPLIES and IFF, a query that is an implication or an equivalence of the
    binary grammar makes the procedure raise ValueError, at every large
    enough recursion depth. *)
Theorem implication_query_raises (o : set_order) (kb : list binary_formula)
    (a b : binary_formula) :
  Forall (λ f, regular f = true) kb →
  ∃ n, ∀ fuel rounds, (n ≤ fuel)%nat →
    inference_by_resolution o rounds fuel (tuple_of <$> kb) (tuple_of (BImplies a b))
    = Raise ValueError
    ∧ inference_by_resolution o rounds fuel (tuple_of <$> kb) (tuple_of (BIff a b))
      = Raise ValueError.
Proof.
  intros Hkb.
  destruct (negated_junction_raises o kb (BImplies a b)) as (n1 & H1); [|done|].
  { intros n c. apply convert_not_implies_shape. }
  destruct (negated_junction_raises o kb (BIff a b)) as (n2 & H2); [|done|].
  { intros n c. apply convert_not_iff_shape. }
  exists (n1 + n2)%nat. intros fuel rounds Hfuel.
  split; [apply H1 | apply H2]; lia.
Qed.

Lemma implication_query_raises_witness :
  ∃ n, ∀ fuel rounds, (n ≤ fuel)%nat →
    inference_by_resolution sorted rounds fuel (tuple_of <$> [BAtom "A"])
      (tuple_of (BImplies (BAtom "A") (BAtom "B"))) = Raise ValueError
    ∧ inference_by_resolution sorted rounds fuel (tuple_of <$> [BAtom "A"])
        (tuple_of (BIff (BAtom "A") (BAtom "B"))) = Raise ValueError.
Proof. apply implication_query_raises. repeat constructor. Defined.

End WumpusLaws.

(** * The number of rounds *)

